(** * whatrecord frontend: the two Vuex stores of [frontend/src/store.js]

    A shallow embedding of [remote_store] and [cached_local_store]: the
    store state, the mutations, and every action of both stores, written
    in a small state-and-exception monad that records the committed
    mutations and the issued HTTP requests.

    Conventions:
    - a JS object used as a table keyed by names (the memo tables of the
      store state, the owners table of [update_duplicates]) is a [gmap]
      of its own keys; names are taken not to be names that every object
      inherits ([constructor], [toString], ...), which [in] and [o[k]]
      would find on an empty object;
    - a JS object of the decoded snapshot, which the code enumerates with
      [Object.values]/[Object.entries]/[Object.keys], is an association
      list in enumeration order ([obj]);
    - [undefined] as an action result is [None];
    - server payloads have the shape the code reads from them; a failed
      request (network error, bad status, undecodable body) is [None];
    - an action runs from its first statement to its last without another
      action in between: an [await] is not a point where the model lets
      another action run. Queries that are still in flight elsewhere show
      as a positive [queries_in_progress] when the action starts;
    - strings are compared byte by byte, which is the code unit order of
      JS for ASCII names. *)

From Stdlib Require Import ZArith Lia Ascii String.
From stdpp Require Import gmap strings list fin_maps sorting.

Set Warnings "-register-all".
Open Scope string_scope.
Open Scope list_scope.
Open Scope Z_scope.

(** ** JSON documents and JS objects *)

(** Documents the store only passes around (IOC metadata, gateway and
    plugin documents, PVA groups, ...). *)
Inductive Value :=
| VUndefined
| VNull
| VBool (b : bool)
| VNum (n : Z)
| VStr (s : string)
| VArr (l : list Value)
| VObj (o : list (string * Value)).

(** A JS object in the order [Object.entries] lists it. *)
Definition obj (V : Type) : Type := list (string * V).

Definition obj_keys {V} (o : obj V) : list string := o.*1.
Definition obj_values {V} (o : obj V) : list V := o.*2.

(** [o[k]]: [None] is [undefined]. *)
Fixpoint obj_get {V} (o : obj V) (k : string) : option V :=
  match o with
  | [] => None
  | (k', v) :: o' => if decide (k' = k) then Some v else obj_get o' k
  end.

(** ** The snapshot document ([/cache.json.gz])

    [{iocs: {name: {md, ioc: {shell_state: {database, pva_database,
    database_definition}}}}, files: {path: {script?, lines?}}}]. *)

Record RecordInstance := {
  record_type : string;
  record_fields : Value;
}.

Record DatabaseDefinition := {
  record_types : obj Value;
}.

Record ShellState := {
  database : obj RecordInstance;
  pva_database : obj Value;
  database_definition : option DatabaseDefinition;
}.

Record Ioc := {
  shell_state : ShellState;
}.

Record IocEntry := {
  md : Value;
  ioc : Ioc;
}.

Record FileEntry := {
  script : option Value;
  lines : option (list string);
}.

(** The two top-level keys may be missing: the loader's fallback is [{}]. *)
Record Snapshot := {
  iocs : option (obj IocEntry);
  files : option (obj FileEntry);
}.

Definition empty_object : Snapshot := {| iocs := None; files := None |}.

(** ** Values held by the store *)

(** [{definition, instance}] of a [whatrec]; a missing [instance] is [null]. *)
Record RecordView := {
  definition : Value;
  instance : option RecordInstance;
}.

Record WhatRecord := {
  name : string;
  whatrec_ioc : Value;
  record : RecordView;
  pva_group : Value;
}.

(** [{pv_name, present, info: [whatrec, ...]}]. *)
Record RecordInfo := {
  pv_name : string;
  present : bool;
  info : list WhatRecord;
}.

(** One synthesized script line: [{context: [[filename, lineno]], line}]. *)
Record ScriptLine := {
  context : list (string * Z);
  line : string;
}.

Inductive FileInfo :=
| file_cached (e : FileEntry)
    (* the snapshot's entry, stored as it is *)
| file_script (path : string) (script_lines : list ScriptLine)
    (* [{script: {path, lines}, ioc: null}] *)
| file_remote (d : Value).
    (* [response.data] of [/api/file/info] *)

(** An element of a per-IOC record list. *)
Inductive IocRecord :=
| v3_record (r : RecordInstance)
| v4_record (g : Value).

(** [{keys, info}] of [plugin_nested_info]. *)
Record NestedInfo := {
  nested_keys : Value;
  nested_info : gmap string Value;
}.

(** ** Store state *)

Record State := {
  cache : option Snapshot;          (* [cached_local_store] only; [None] is [null] *)
  duplicates : gmap string (list string);
  file_info : gmap string FileInfo;
  gateway_info : Value;
  glob_to_pvs : gmap string (list string);
  ioc_info : list Value;
  ioc_to_records : gmap string (list IocRecord);
  plugin_info : gmap string Value;
  plugin_nested_info : gmap string NestedInfo;
  pv_relations : Value;
  queries_in_progress : Z;
  query_in_progress : bool;
  record_info : gmap string RecordInfo;
  regex_to_pvs : gmap string (list string);
}.

(** [state: () => ({...})], the same in both stores ([cache] and the
    unused [file_stream] are declared by [cached_local_store] only). *)
Definition initial_state : State := {|
  cache := None;
  duplicates := ∅;
  file_info := ∅;
  gateway_info := VNull;
  glob_to_pvs := ∅;
  ioc_info := [];
  ioc_to_records := ∅;
  plugin_info := ∅;
  plugin_nested_info := ∅;
  pv_relations := VObj [];
  queries_in_progress := 0;
  query_in_progress := false;
  record_info := ∅;
  regex_to_pvs := ∅;
|}.

(** Field updates. *)
Definition with_cache (x : option Snapshot) (s : State) : State :=
  let '(Build_State _ b c d e f g h i j k l m n) := s in
  Build_State x b c d e f g h i j k l m n.
Definition with_duplicates (x : gmap string (list string)) (s : State) : State :=
  let '(Build_State a _ c d e f g h i j k l m n) := s in
  Build_State a x c d e f g h i j k l m n.
Definition with_file_info (x : gmap string FileInfo) (s : State) : State :=
  let '(Build_State a b _ d e f g h i j k l m n) := s in
  Build_State a b x d e f g h i j k l m n.
Definition with_gateway_info (x : Value) (s : State) : State :=
  let '(Build_State a b c _ e f g h i j k l m n) := s in
  Build_State a b c x e f g h i j k l m n.
Definition with_glob_to_pvs (x : gmap string (list string)) (s : State) : State :=
  let '(Build_State a b c d _ f g h i j k l m n) := s in
  Build_State a b c d x f g h i j k l m n.
Definition with_ioc_info (x : list Value) (s : State) : State :=
  let '(Build_State a b c d e _ g h i j k l m n) := s in
  Build_State a b c d e x g h i j k l m n.
Definition with_ioc_to_records (x : gmap string (list IocRecord)) (s : State) : State :=
  let '(Build_State a b c d e f _ h i j k l m n) := s in
  Build_State a b c d e f x h i j k l m n.
Definition with_plugin_info (x : gmap string Value) (s : State) : State :=
  let '(Build_State a b c d e f g _ i j k l m n) := s in
  Build_State a b c d e f g x i j k l m n.
Definition with_plugin_nested_info (x : gmap string NestedInfo) (s : State) : State :=
  let '(Build_State a b c d e f g h _ j k l m n) := s in
  Build_State a b c d e f g h x j k l m n.
Definition with_pv_relations (x : Value) (s : State) : State :=
  let '(Build_State a b c d e f g h i _ k l m n) := s in
  Build_State a b c d e f g h i x k l m n.
Definition with_queries_in_progress (x : Z) (s : State) : State :=
  let '(Build_State a b c d e f g h i j _ l m n) := s in
  Build_State a b c d e f g h i j x l m n.
Definition with_query_in_progress (x : bool) (s : State) : State :=
  let '(Build_State a b c d e f g h i j k _ m n) := s in
  Build_State a b c d e f g h i j k x m n.
Definition with_record_info (x : gmap string RecordInfo) (s : State) : State :=
  let '(Build_State a b c d e f g h i j k l _ n) := s in
  Build_State a b c d e f g h i j k l x n.
Definition with_regex_to_pvs (x : gmap string (list string)) (s : State) : State :=
  let '(Build_State a b c d e f g h i j k l m _) := s in
  Build_State a b c d e f g h i j k l m x.

(** ** Mutations

    Both stores declare the same mutations (lines 23-83 and 344-408);
    [set_cache] exists in [cached_local_store] only. A commit is a
    constructor with the payload fields the mutation reads. *)
Inductive Mutation :=
| start_query
| end_query
| add_record_search_results (pattern : string) (pv_list : list string) (regex : bool)
| set_cache (c : Snapshot)
| set_duplicates (d : gmap string (list string))
| set_file_info (filename : string) (i : FileInfo)
| set_ioc_info (i : list Value)
| set_gateway_info (g : Value)
| set_plugin_info (plugin_name : string) (p : Value)
| set_plugin_nested_keys (plugin_name : string) (keys : Value)
| set_plugin_nested_info (plugin_name : string) (key : string) (i : Value)
| add_record_info (rec : string) (i : RecordInfo)
| set_ioc_records (ioc_name : string) (records : list IocRecord)
| set_pv_relations (data : Value).

(** [plugin_nested_info[plugin_name]], created with the given [keys] when
    the plugin has no entry yet. *)
Definition nested_entry (s : State) (plugin_name : string) (keys0 : Value) : NestedInfo :=
  match plugin_nested_info s !! plugin_name with
  | Some e => e
  | None => {| nested_keys := keys0; nested_info := ∅ |}
  end.

Definition mutate (m : Mutation) (s : State) : State :=
  match m with
  | start_query =>
      with_query_in_progress true
        (with_queries_in_progress (queries_in_progress s + 1) s)
  | end_query =>
      let s1 :=
        if decide (queries_in_progress s > 0)
        then with_queries_in_progress (queries_in_progress s - 1) s
        else s in
      if decide (queries_in_progress s1 = 0)
      then with_query_in_progress false s1
      else s1
  | add_record_search_results pattern pv_list regex =>
      if regex
      then with_regex_to_pvs (<[pattern := pv_list]> (regex_to_pvs s)) s
      else with_glob_to_pvs (<[pattern := pv_list]> (glob_to_pvs s)) s
  | set_cache c => with_cache (Some c) s
  | set_duplicates d => with_duplicates d s
  | set_file_info filename i =>
      with_file_info (<[filename := i]> (file_info s)) s
  | set_ioc_info i => with_ioc_info i s
  | set_gateway_info g => with_gateway_info g s
  | set_plugin_info plugin_name p =>
      with_plugin_info (<[plugin_name := p]> (plugin_info s)) s
  | set_plugin_nested_keys plugin_name keys =>
      let e := nested_entry s plugin_name VNull in
      with_plugin_nested_info
        (<[plugin_name := {| nested_keys := keys; nested_info := nested_info e |}]>
           (plugin_nested_info s)) s
  | set_plugin_nested_info plugin_name key i =>
      let e := nested_entry s plugin_name (VArr []) in
      with_plugin_nested_info
        (<[plugin_name := {| nested_keys := nested_keys e;
                             nested_info := <[key := i]> (nested_info e) |}]>
           (plugin_nested_info s)) s
  | add_record_info rec i =>
      with_record_info (<[rec := i]> (record_info s)) s
  | set_ioc_records ioc_name records =>
      with_ioc_to_records (<[ioc_name := records]> (ioc_to_records s)) s
  | set_pv_relations data => with_pv_relations data s
  end.

(** A sequence of commits, oldest first. *)
Definition mutate_all (ms : list Mutation) (s : State) : State :=
  foldl (λ acc m, mutate m acc) s ms.

(** States a store can be in: the initial state after any commits. *)
Inductive reachable : State → Prop :=
| reachable_initial : reachable initial_state
| reachable_commit m s : reachable s → reachable (mutate m s).

Definition tracker_mutation (m : Mutation) : Prop :=
  m = start_query ∨ m = end_query.

(** [busy == (in_flight > 0)], with [in_flight] not negative. *)
Definition tracker_inv (s : State) : Prop :=
  0 ≤ queries_in_progress s ∧
  (query_in_progress s = true ↔ queries_in_progress s > 0).

Record Request := {
  url : string;
  params : obj Value;
}.

(** ** Actions: state, exceptions and a log *)

Inductive Error :=
| ReferenceError
| TypeError
| NetworkError.

Inductive Event :=
| EvCommit (m : Mutation)
| EvGet (r : Request) (answered : bool)
| EvDispatch (action : string).

Record World := {
  store : State;
  trace : list Event;   (* oldest first *)
}.

Inductive Outcome (A : Type) :=
| Return (a : A)
| Throw (e : Error).
Arguments Return {A} a.
Arguments Throw {A} e.

Definition Action (A : Type) : Type := World → Outcome A * World.

Definition ret {A} (a : A) : Action A := λ w, (Return a, w).

Definition throw {A} (e : Error) : Action A := λ w, (Throw e, w).

Definition bind {A B} (a : Action A) (k : A → Action B) : Action B :=
  λ w,
    match a w with
    | (Return x, w1) => k x w1
    | (Throw e, w1) => (Throw e, w1)
    end.

#[global] Instance Action_ret : MRet Action := @ret.
#[global] Instance Action_bind : MBind Action := λ A B k a, bind a k.

(** [try { body } catch (error) { handler } finally { fin }]. *)
Definition try_catch_finally {A}
    (body : Action A) (handler : Error → Action A) (fin : Action unit) : Action A :=
  λ w,
    let '(r, w1) :=
      match body w with
      | (Return x, w1) => (Return x, w1)
      | (Throw e, w1) => handler e w1
      end in
    match fin w1 with
    | (Return _, w2) => (r, w2)
    | (Throw e, w2) => (Throw e, w2)
    end.

(** [for (const x of xs) { body }]. *)
Fixpoint for_of {A} (xs : list A) (body : A → Action unit) : Action unit :=
  match xs with
  | [] => ret tt
  | x :: xs' => body x;; for_of xs' body
  end.

Definition get_state : Action State := λ w, (Return (store w), w).

Definition emit (e : Event) : Action unit :=
  λ w, (Return tt, {| store := store w; trace := trace w ++ [e] |}).

(** [context.commit(m)]. *)
Definition commit (m : Mutation) : Action unit :=
  λ w, (Return tt, {| store := mutate m (store w); trace := trace w ++ [EvCommit m] |}).

(** [console.error], [console.log], ...: no effect on the store. *)
Definition console : Action unit := ret tt.

(** [Object.values(o)], [Object.entries(o)], [Object.keys(o)] of a
    possibly missing property: a [TypeError] on [undefined]. *)
Definition Object_values {V} (o : option (obj V)) : Action (list V) :=
  match o with
  | Some o => ret (obj_values o)
  | None => throw TypeError
  end.

Definition Object_entries {V} (o : option (obj V)) : Action (list (string * V)) :=
  match o with
  | Some o => ret o
  | None => throw TypeError
  end.

(** [o[k]] where [o] itself may be [undefined]. *)
Definition member {V} (o : option (obj V)) (k : string) : Action (option V) :=
  match o with
  | Some o => ret (obj_get o k)
  | None => throw TypeError
  end.

(** [x.p] where [x] may be [undefined]. *)
Definition property {A B} (x : option A) (p : A → B) : Action B :=
  match x with
  | Some x => ret (p x)
  | None => throw TypeError
  end.

(** The starting point of a store. *)
Definition initial_world : World := {| store := initial_state; trace := [] |}.

(** Response documents of which the code reads one property. *)
Record IocMatchesDoc := { ioc_matches : list Value }.
Record IocPvsDoc := { ioc_pvs_matches : list (Value * list IocRecord) }.
Record DuplicatesDoc := { doc_duplicates : gmap string (list string) }.
Record PvMatchesDoc := { pv_matches : list string }.

(** ** The server

    What each endpoint answers; [None] is a failed request. *)
Record Server := {
  api_ioc_matches : string → option IocMatchesDoc;
  api_gateway_info : option Value;
  api_plugin_info : string → option (obj Value);
  api_plugin_nested_keys : string → option Value;
  api_plugin_nested_info : string → string → option Value;
  api_pv_info : string → option (obj RecordInfo);
  api_ioc_pvs : string → string → option IocPvsDoc;
  api_file_info : string → option Value;
  api_pv_duplicates : string → option DuplicatesDoc;
  api_pv_relations : string → bool → bool → option Value;
  api_pv_matches : string → Value → bool → option PvMatchesDoc;
  cache_json_gz : option Snapshot;
}.

Section http.
(** The server as a function of everything the store did so far:
    answers may change from one request to the next. *)
Context (net : list Event → Server).

(** [await axios.get(url, {params})]: the request is logged with its
    outcome, and a failed one is thrown. *)
Definition axios_get {A} (u : string) (ps : obj Value)
    (endpoint : Server → option A) : Action A :=
  λ w,
    let request := {| url := u; params := ps |} in
    match endpoint (net (trace w)) with
    | Some data =>
        (Return data,
         {| store := store w; trace := trace w ++ [EvGet request true] |})
    | None =>
        (Throw NetworkError,
         {| store := store w; trace := trace w ++ [EvGet request false] |})
    end.
End http.

(** An identifier that is bound nowhere: evaluating it throws. *)
Definition unbound {A} (identifier : string) : Action A := throw ReferenceError.

(** [pattern || (regex ? ".*" : "*")]. *)
Definition query_pattern_of (pattern : string) (regex : bool) : string :=
  if decide (pattern = "") then (if regex then ".*" else "*") else pattern.

(** ** [remote_store] (lines 6-323) *)
Module remote_store.
Section actions.
Context (net : list Event → Server).

Definition update_ioc_info : Action (option (list Value)) :=
  st ← get_state;
  if bool_decide (0 < length (ioc_info st))%nat then ret (Some (ioc_info st))
  else
    try_catch_finally
      (commit start_query;;
       response ← axios_get net "/api/ioc/matches" [("pattern", VStr "*")]
                    (λ s, api_ioc_matches s "*");
       commit (set_ioc_info (ioc_matches response));;
       ret (Some (ioc_matches response)))
      (λ error, console;; ret None)
      (commit end_query).

Definition update_gateway_info : Action (option Value) :=
  try_catch_finally
    (commit start_query;;
     response ← axios_get net "/api/gateway/info" [] api_gateway_info;
     commit (set_gateway_info response);;
     ret (Some response))
    (λ error, console;; ret None)
    (commit end_query).

Definition update_plugin_info (plugin : string) : Action (option (obj Value)) :=
  try_catch_finally
    (commit start_query;;
     response ← axios_get net "/api/plugin/info" [("plugin", VStr plugin)]
                  (λ s, api_plugin_info s plugin);
     commit (set_plugin_info plugin (default VUndefined (obj_get response plugin)));;
     ret (Some response))
    (λ error, console;; ret None)
    (commit end_query).

Definition get_plugin_nested_keys (plugin : string) : Action (option Value) :=
  try_catch_finally
    (commit start_query;;
     response ← axios_get net "/api/plugin/nested/keys" [("plugin", VStr plugin)]
                  (λ s, api_plugin_nested_keys s plugin);
     commit (set_plugin_nested_keys plugin response);;
     ret (Some response))
    (λ error, console;; ret None)
    (commit end_query).

Definition get_plugin_nested_info (plugin key : string) : Action (option Value) :=
  try_catch_finally
    (commit start_query;;
     response ← axios_get net "/api/plugin/nested/info"
                  [("plugin", VStr plugin); ("key", VStr key)]
                  (λ s, api_plugin_nested_info s plugin key);
     commit (set_plugin_nested_info plugin key response);;
     ret (Some response))
    (λ error, console;; ret None)
    (commit end_query).

(** The action is declared as [get_record_info(context)]: [record_name]
    is not a parameter, and nothing else in the module binds it. *)
Definition get_record_info : Action (option (RecordInfo + obj RecordInfo)) :=
  record_name ← unbound "record_name";
  st ← get_state;
  match record_info st !! record_name with
  | Some cached => ret (Some (inl cached))
  | None =>
      try_catch_finally
        (commit start_query;;
         response ← axios_get net "/api/pv/info" [("pv", VStr record_name)]
                      (λ s, api_pv_info s record_name);
         for_of response (λ '(rec, rec_info), commit (add_record_info rec rec_info));;
         ret (Some (inr response)))
        (λ error, console;; ret None)
        (commit end_query)
  end.

Definition get_ioc_records (ioc_name : string) : Action (option (list IocRecord)) :=
  try_catch_finally
    (commit start_query;;
     response ← axios_get net "/api/ioc/pvs"
                  [("ioc", VStr ioc_name); ("pv", VStr "*")]
                  (λ s, api_ioc_pvs s ioc_name "*");
     let records :=
       match ioc_pvs_matches response with
       | first :: _ => first.2
       | [] => []
       end in
     commit (set_ioc_records ioc_name records);;
     ret (Some records))
    (λ error, console;; ret None)
    (commit end_query).

Definition get_file_info (filename : string) : Action (option Value) :=
  try_catch_finally
    (commit start_query;;
     response ← axios_get net "/api/file/info" [("file", VStr filename)]
                  (λ s, api_file_info s filename);
     commit (set_file_info filename (file_remote response));;
     ret (Some response))
    (λ error, console;; ret None)
    (commit end_query).

Definition update_duplicates : Action (option DuplicatesDoc) :=
  try_catch_finally
    (commit start_query;;
     response ← axios_get net "/api/pv/duplicates" [("pattern", VStr "*")]
                  (λ s, api_pv_duplicates s "*");
     commit (set_duplicates (doc_duplicates response));;
     ret (Some response))
    (λ error, console;; ret None)
    (commit end_query).

Definition get_pv_relations : Action (option Value) :=
  let full := false in
  let pv_glob := "*" in
  try_catch_finally
    (commit start_query;;
     response ← axios_get net "/api/pv/relations"
                  [("pv", VStr pv_glob); ("glob", VBool true); ("full", VBool full)]
                  (λ s, api_pv_relations s pv_glob true full);
     commit (set_pv_relations response);;
     ret (Some response))
    (λ error, console;; ret None)
    (commit end_query).

(** [pattern] is [None] for [null]/[undefined]. *)
Definition find_record_matches (pattern : option string) (max_pvs : Value)
    (regex : bool) : Action (option (list string)) :=
  match pattern with
  | None => ret None
  | Some pattern =>
      st ← get_state;
      if negb regex && bool_decide (is_Some (glob_to_pvs st !! pattern))
      then ret (glob_to_pvs st !! pattern)
      else if regex && bool_decide (is_Some (regex_to_pvs st !! pattern))
      then ret (regex_to_pvs st !! pattern)
      else
        commit start_query;;
        let query_pattern := query_pattern_of pattern regex in
        console;;
        try_catch_finally
          (response ← axios_get net "/api/pv/matches"
                        [("pattern", VStr query_pattern); ("max", max_pvs);
                         ("regex", VBool regex)]
                        (λ s, api_pv_matches s query_pattern max_pvs regex);
           let matches := pv_matches response in
           commit (add_record_search_results pattern matches regex);;
           ret (Some matches))
          (λ error, console;; ret None)
          (commit end_query)
  end.
End actions.
End remote_store.

(** ** Helpers of [cached_local_store] *)

(** [v != null]. *)
Definition not_null (v : Value) : bool :=
  match v with
  | VUndefined | VNull => false
  | _ => true
  end.

(** JS truthiness of a document. *)
Definition truthy (v : Value) : bool :=
  match v with
  | VUndefined | VNull | VBool false | VNum 0 | VStr "" => false
  | _ => true
  end.

(** [v ?? null] for a looked-up document. *)
Definition or_null (v : option Value) : Value :=
  match v with
  | Some v => if not_null v then v else VNull
  | None => VNull
  end.

(** [context.dispatch(name)] of another action of the store. *)
Definition dispatch {A} (action : string) (a : Action A) : Action A :=
  emit (EvDispatch action);; a.

(** [Array.from(new Set(l))]: first occurrences, in order. *)
Definition Array_from_Set (l : list string) : list string :=
  foldl (λ seen x, if decide (x ∈ seen) then seen else seen ++ [x]) [] l.

(** The order of the default [Array.prototype.sort]: strings compared
    code unit by code unit (here: byte by byte). *)
Definition str_le (a b : string) : Prop := String.leb a b = true.

#[global] Instance str_le_dec a b : Decision (str_le a b).
Proof. unfold str_le. apply _. Defined.

Definition Array_sort (l : list string) : list string := merge_sort str_le l.

(** [if (pvname in dupes === false) dupes[pvname] = [];
     dupes[pvname].push(iocname)]. *)
Definition push_owner (iocname : string) (dupes : gmap string (list string))
    (pvname : string) : gmap string (list string) :=
  let dupes :=
    match dupes !! pvname with
    | None => <[pvname := []]> dupes
    | Some _ => dupes
    end in
  alter (λ owners, owners ++ [iocname]) pvname dupes.

(** The two inner loops of [update_duplicates] for one IOC. *)
Definition push_ioc (dupes : gmap string (list string))
    (entry : string * IocEntry) : gmap string (list string) :=
  let '(iocname, ioc_info) := entry in
  let dupes :=
    foldl (push_owner iocname) dupes
      (obj_keys (database (shell_state (ioc ioc_info)))) in
  foldl (push_owner iocname) dupes
    (obj_keys (pva_database (shell_state (ioc ioc_info)))).

(** [for (const [pvname, iocs] of Object.entries(dupes))
      if (iocs.length <= 1) delete dupes[pvname]]. *)
Definition delete_singles (dupes : gmap string (list string))
    : gmap string (list string) :=
  filter (λ kv, ¬ (length kv.2 ≤ 1)%nat) dupes.

(** The [whatrec] objects built by [get_record_info]. *)
Definition v3_whatrec (record_name : string) (ioc_info : IocEntry)
    (v3 : RecordInstance) : WhatRecord :=
  {| name := record_name;
     whatrec_ioc := md ioc_info;
     record :=
       {| definition :=
            or_null (dd ← database_definition (shell_state (ioc ioc_info));
                     obj_get (record_types dd) (record_type v3));
          instance := Some v3 |};
     pva_group := VNull |}.

Definition v4_whatrec (record_name : string) (ioc_info : IocEntry)
    (v4 : Value) : WhatRecord :=
  {| name := record_name;
     whatrec_ioc := md ioc_info;
     record := {| definition := VNull; instance := None |};
     pva_group := v4 |}.

(** [{pv_name: record_name, present: true, info: [whatrec]}]. *)
Definition single_info (record_name : string) (whatrec : WhatRecord) : RecordInfo :=
  {| pv_name := record_name; present := true; info := [whatrec] |}.

(** The names one IOC contributes to [matches], in push order. *)
Definition ioc_matches_of (matcher : string → bool) (ioc_info : IocEntry)
    : list string :=
  List.filter matcher (obj_keys (database (shell_state (ioc ioc_info)))) ++
  List.filter matcher (obj_keys (pva_database (shell_state (ioc ioc_info)))).

(** ** [cached_local_store] (lines 325-742) *)
Module cached_local_store.
Section actions.
Context (net : list Event → Server).
(** [wildcard-match] and the built-in [RegExp]: a compiled pattern is a
    predicate on names; [RegExp] rejects a malformed pattern. *)
Context (wcmatch : string → string → bool).
Context (RegExp : string → option (string → bool)).

Definition load_cached_whatrecord_data : Action Snapshot :=
  st ← get_state;
  match cache st with
  | Some cached => ret cached
  | None =>
      try_catch_finally
        (commit start_query;;
         response ← axios_get net "/cache.json.gz" [] cache_json_gz;
         commit (set_cache response);;
         ret response)
        (λ error, console;; ret empty_object)
        (commit end_query)
  end.

Definition update_ioc_info : Action (option (list Value)) :=
  st ← get_state;
  if bool_decide (0 < length (ioc_info st))%nat then ret (Some (ioc_info st))
  else
    cache ← dispatch "load_cached_whatrecord_data" load_cached_whatrecord_data;
    values ← Object_values (iocs cache);
    let ioc_info := md <$> values in
    commit (set_ioc_info ioc_info);;
    ret None.

Definition update_gateway_info : Action (option Value) :=
  try_catch_finally
    (commit start_query;;
     response ← axios_get net "/api/gateway/info" [] api_gateway_info;
     commit (set_gateway_info response);;
     ret (Some response))
    (λ error, console;; ret None)
    (commit end_query).

Definition update_plugin_info (plugin : string) : Action (option (obj Value)) :=
  try_catch_finally
    (commit start_query;;
     response ← axios_get net "/api/plugin/info" [("plugin", VStr plugin)]
                  (λ s, api_plugin_info s plugin);
     commit (set_plugin_info plugin (default VUndefined (obj_get response plugin)));;
     ret (Some response))
    (λ error, console;; ret None)
    (commit end_query).

Definition get_plugin_nested_keys (plugin : string) : Action (option Value) :=
  try_catch_finally
    (commit start_query;;
     response ← axios_get net "/api/plugin/nested/keys" [("plugin", VStr plugin)]
                  (λ s, api_plugin_nested_keys s plugin);
     commit (set_plugin_nested_keys plugin response);;
     ret (Some response))
    (λ error, console;; ret None)
    (commit end_query).

Definition get_plugin_nested_info (plugin key : string) : Action (option Value) :=
  try_catch_finally
    (commit start_query;;
     response ← axios_get net "/api/plugin/nested/info"
                  [("plugin", VStr plugin); ("key", VStr key)]
                  (λ s, api_plugin_nested_info s plugin key);
     commit (set_plugin_nested_info plugin key response);;
     ret (Some response))
    (λ error, console;; ret None)
    (commit end_query).

(** The body of the loop over [Object.values(cache.iocs)]. *)
Definition get_record_info_step (record_name : string) (ioc_info : IocEntry)
    : Action unit :=
  let ioc := ioc ioc_info in
  let v3_record := obj_get (database (shell_state ioc)) record_name in
  match v3_record with
  | Some v3 =>
      let whatrec := v3_whatrec record_name ioc_info v3 in
      let info := single_info record_name whatrec in
      console;;
      commit (add_record_info record_name info)
  | None => ret tt
  end;;
  let v4_record := obj_get (pva_database (shell_state ioc)) record_name in
  match v4_record with
  | Some v4 =>
      if not_null v4 then
        let whatrec := v4_whatrec record_name ioc_info v4 in
        let info := single_info record_name whatrec in
        console;;
        commit (add_record_info record_name info)
      else ret tt
  | None => ret tt
  end.

Definition get_record_info (record_name : string) : Action (option RecordInfo) :=
  st ← get_state;
  match record_info st !! record_name with
  | Some cached => ret (Some cached)
  | None =>
      cache ← dispatch "load_cached_whatrecord_data" load_cached_whatrecord_data;
      values ← Object_values (iocs cache);
      for_of values (get_record_info_step record_name);;
      ret None
  end.

Definition get_ioc_records (ioc_name : string) : Action (list IocRecord) :=
  cache ← dispatch "load_cached_whatrecord_data" load_cached_whatrecord_data;
  entry ← member (iocs cache) ioc_name;
  v3_records ← property entry (λ e, obj_values (database (shell_state (ioc e))));
  entry ← member (iocs cache) ioc_name;
  v4_records ← property entry (λ e, obj_values (pva_database (shell_state (ioc e))));
  let records := (v3_record <$> v3_records) ++ (v4_record <$> v4_records) in
  commit (set_ioc_records ioc_name records);;
  ret records.

Definition get_file_info (filename : string) : Action (option FileInfo) :=
  st ← get_state;
  match file_info st !! filename with
  | Some cached => ret (Some cached)
  | None =>
      cache ← dispatch "load_cached_whatrecord_data" load_cached_whatrecord_data;
      cached_file_info ← member (files cache) filename;
      if bool_decide (truthy <$> (cached_file_info ≫= script) = Some true) then
        commit (set_file_info filename
                  (file_cached (default {| script := None; lines := None |}
                                  cached_file_info)));;
        ret None
      else
        match cached_file_info ≫= lines with
        | Some raw_lines =>
            let line_by_line_info :=
              imap (λ lineno line,
                      {| context := [(filename, Z.of_nat lineno + 1)];
                         line := line |}) raw_lines in
            commit (set_file_info filename (file_script filename line_by_line_info));;
            ret None
        | None => ret None
        end
  end.

Definition update_duplicates : Action (option (gmap string (list string))) :=
  st ← get_state;
  if bool_decide (0 < size (duplicates st))%nat then ret (Some (duplicates st))
  else
    cache ← dispatch "load_cached_whatrecord_data" load_cached_whatrecord_data;
    entries ← Object_entries (iocs cache);
    let dupes := foldl push_ioc ∅ entries in
    let dupes := delete_singles dupes in
    commit (set_duplicates dupes);;
    ret None.

Definition get_pv_relations : Action (option Value) :=
  let full := false in
  let pv_glob := "*" in
  try_catch_finally
    (commit start_query;;
     response ← axios_get net "/api/pv/relations"
                  [("pv", VStr pv_glob); ("glob", VBool true); ("full", VBool full)]
                  (λ s, api_pv_relations s pv_glob true full);
     commit (set_pv_relations response);;
     ret (Some response))
    (λ error, console;; ret None)
    (commit end_query).

(** [new RegExp(pattern)] in regex mode, [wcmatch(pattern)] otherwise:
    [None] when the constructor throws. *)
Definition compile_matcher (pattern : string) (regex : bool)
    : option (string → bool) :=
  if regex then RegExp pattern else Some (wcmatch pattern).

Definition find_record_matches (pattern : option string) (max_pvs : Value)
    (regex : bool) : Action (option (list string)) :=
  match pattern with
  | None => ret None
  | Some pattern =>
      st ← get_state;
      if negb regex && bool_decide (is_Some (glob_to_pvs st !! pattern))
      then ret (glob_to_pvs st !! pattern)
      else if regex && bool_decide (is_Some (regex_to_pvs st !! pattern))
      then ret (regex_to_pvs st !! pattern)
      else
        let query_pattern := query_pattern_of pattern regex in
        console;;
        cache ← dispatch "load_cached_whatrecord_data" load_cached_whatrecord_data;
        match compile_matcher pattern regex with
        | None => console;; ret None
        | Some matcher =>
            values ← Object_values (iocs cache);
            let matches := flat_map (ioc_matches_of matcher) values in
            try_catch_finally
              (commit (add_record_search_results pattern
                         (Array_sort (Array_from_Set matches)) regex);;
               ret (Some matches))
              (λ error, console;; ret None)
              (commit end_query)
        end
  end.
End actions.
End cached_local_store.

(** ** The snapshot as the scanning actions see it *)

Section snapshot.
Context (net : list Event → Server).

(** [await context.dispatch("load_cached_whatrecord_data")], the first
    step of every scanning action. *)
Definition load : Action Snapshot :=
  dispatch "load_cached_whatrecord_data"
    (cached_local_store.load_cached_whatrecord_data net).
End snapshot.

(** The contributions of one IOC to a PV name, in the order the scan
    meets them: the traditional record, then the PVA group. *)
Definition source_hits (record_name : string) (e : IocEntry) : list WhatRecord :=
  match obj_get (database (shell_state (ioc e))) record_name with
  | Some v3 => [v3_whatrec record_name e v3]
  | None => []
  end ++
  match obj_get (pva_database (shell_state (ioc e))) record_name with
  | Some v4 => if not_null v4 then [v4_whatrec record_name e v4] else []
  | None => []
  end.

(** The names of one IOC, both namespaces. *)
Definition ioc_names (e : IocEntry) : list string :=
  obj_keys (database (shell_state (ioc e))) ++
  obj_keys (pva_database (shell_state (ioc e))).

(** The IOC names that expose [pvname], in scan order, once for each
    namespace of the IOC that has the name. *)
Definition owners (l : obj IocEntry) (pvname : string) : list string :=
  flat_map (λ entry : string * IocEntry,
              (λ _, entry.1) <$> filter (λ k, k = pvname) (ioc_names entry.2)) l.


(** ** Reading the log *)

(** The mutations committed by a run, oldest first. *)
Definition commits_of (evs : list Event) : list Mutation :=
  omap (λ e, match e with EvCommit m => Some m | _ => None end) evs.

(** The requests issued by a run. *)
Definition requests_of (evs : list Event) : list Request :=
  omap (λ e, match e with EvGet r _ => Some r | _ => None end) evs.

(** Nesting depth of [start_query]/[end_query] after [evs], starting at
    depth [d]; [None] as soon as an [end_query] has no [start_query]
    before it. *)
Fixpoint bracket_depth (evs : list Event) (d : nat) : option nat :=
  match evs with
  | [] => Some d
  | EvCommit start_query :: evs' => bracket_depth evs' (S d)
  | EvCommit end_query :: evs' =>
      match d with
      | O => None
      | S d' => bracket_depth evs' d'
      end
  | _ :: evs' => bracket_depth evs' d
  end.

(** Every [end_query] closes an earlier [start_query] of the same run and
    none stays open. *)
Definition paired (evs : list Event) : Prop := bracket_depth evs 0 = Some 0%nat.

(** [w'] is [w] after the events [evs]: the log grew by [evs] and the
    store changed by the commits among them, and by nothing else. *)
Definition extends (w w' : World) (evs : list Event) : Prop :=
  trace w' = trace w ++ evs ∧
  store w' = mutate_all (commits_of evs) (store w).

(** [w] after the commits [ms] and nothing else. *)
Definition committed (ms : list Mutation) (w : World) : World :=
  {| store := mutate_all ms (store w); trace := trace w ++ (EvCommit <$> ms) |}.

(** [w] after the loader was dispatched. *)
Definition dispatched (w : World) : World :=
  {| store := store w;
     trace := trace w ++ [EvDispatch "load_cached_whatrecord_data"] |}.

(** The action run in [w] ends (returning or raising) after a paired run
    of events. *)
Definition balanced_at {A} (a : Action A) (w : World) : Prop :=
  ∃ evs, extends w (a w).2 evs ∧ paired evs.

Definition balanced {A} (a : Action A) : Prop := ∀ w, balanced_at a w.




(** Some request of the run failed. *)
Definition failed_request (evs : list Event) : Prop :=
  ∃ r, EvGet r false ∈ evs.




(** [s] with the counter at [n] and the flag to match. *)
Definition at_counter (n : Z) (s : State) : State :=
  with_query_in_progress (bool_decide (n > 0)) (with_queries_in_progress n s).

(** The events a run added to the log of [w]. *)
Definition new_events (w w' : World) : list Event :=
  drop (length (trace w)) (trace w').

(** Whenever a request of its run fails, the action leaves the store as
    it found it. *)
Definition failure_keeps_store {A} (a : Action A) : Prop :=
  ∀ w, tracker_inv (store w) →
       failed_request (new_events w (a w).2) → store (a w).2 = store w.

(** The action leaves the counter and the flag as it found them. *)
Definition keeps_tracker {A} (a : Action A) : Prop :=
  ∀ w, tracker_inv (store w) →
       queries_in_progress (store (a w).2) = queries_in_progress (store w) ∧
       query_in_progress (store (a w).2) = query_in_progress (store w).

(** The action leaves a loaded snapshot in place. *)
Definition keeps_cache {A} (a : Action A) : Prop :=
  ∀ w c, cache (store w) = Some c → cache (store (a w).2) = Some c.

(** With the snapshot loaded, the action sends no request. *)
Definition offline_when_loaded {A} (a : Action A) : Prop :=
  ∀ w c, cache (store w) = Some c → requests_of (new_events w (a w).2) = [].

(** With the snapshot loaded, the action sends no request and commits no
    tracker mutation. *)
Definition local_when_loaded {A} (a : Action A) : Prop :=
  ∀ w c, cache (store w) = Some c →
         requests_of (new_events w (a w).2) = [] ∧
         Forall (λ m, ¬ tracker_mutation m) (commits_of (new_events w (a w).2)).

(** The action leaves the per-PV results as it found them. *)
Definition keeps_record_info {A} (a : Action A) : Prop :=
  ∀ w, record_info (store (a w).2) = record_info (store w).


(** Whatever the store holds, the action sends the request [r], once. *)
Definition always_requests {A} (a : Action A) (r : Request) : Prop :=
  ∀ w, requests_of (new_events w (a w).2) = [r].

(** The per-(pattern, is_regex) memo of a store. *)
Definition pv_cache (regex : bool) (s : State) : gmap string (list string) :=
  if regex then regex_to_pvs s else glob_to_pvs s.

(** ** The IOC page ([ioc-info] component, lines 785-842)

    The helpers and computed properties that sort the files an IOC has
    loaded into the two tables of the page. Of the [ioc_info] prop only
    [loaded_files] is read; [None] is a prop not passed yet. *)

(** [s.lastIndexOf(c)], scanning from index [i] with [found] the last
    index seen so far; [-1] when there is none. *)
Fixpoint lastIndexOf_from (s : string) (c : ascii) (i found : Z) : Z :=
  match s with
  | EmptyString => found
  | String a s' =>
      lastIndexOf_from s' c (i + 1) (if decide (a = c) then i else found)
  end.

Definition String_lastIndexOf (s : string) (c : ascii) : Z :=
  lastIndexOf_from s c 0 (-1).

(** [s.substring(indexStart, indexEnd)]: both indices are clamped to
    [0 .. s.length] and swapped when out of order. *)
Definition String_substring (s : string) (indexStart indexEnd : Z) : string :=
  let len := Z.of_nat (String.length s) in
  let a := Z.max 0 (Z.min indexStart len) in
  let b := Z.max 0 (Z.min indexEnd len) in
  String.substring (Z.to_nat (Z.min a b)) (Z.to_nat (Z.max a b - Z.min a b)) s.

(** [s.toLowerCase()] on the letters [A] to [Z]. *)
Definition toLowerCase_char (c : ascii) : ascii :=
  let n := N_of_ascii c in
  if ((65 <=? n) && (n <=? 90))%N then ascii_of_N (n + 32) else c.

Fixpoint String_toLowerCase (s : string) : string :=
  match s with
  | EmptyString => EmptyString
  | String c s' => String (toLowerCase_char c) (String_toLowerCase s')
  end.

(** [l.indexOf(x)]: the first index of [x], [-1] when there is none. *)
Fixpoint Array_indexOf (l : list string) (x : string) : Z :=
  match l with
  | [] => -1
  | y :: l' =>
      if decide (y = x) then 0
      else let i := Array_indexOf l' x in if decide (i < 0) then -1 else i + 1
  end.

Definition startup_extensions : list string := ["cmd"; "db"; "dbd"].

Definition get_extension (filename : string) : string :=
  let extension :=
    String_substring filename (String_lastIndexOf filename "." + 1)
      (Z.of_nat (String.length filename)) in
  if decide (extension = "") then filename else extension.

Definition is_startup_file (filename : string) : bool :=
  bool_decide
    (Array_indexOf startup_extensions (String_toLowerCase (get_extension filename))
     >= 0).

Record IocInfo := {
  loaded_files : obj Value;
}.

(** [{name: file, hash: hash}]. *)
Record LoadedFile := {
  file_name : string;
  file_hash : Value;
}.

Definition all_files (ioc_info : option IocInfo) : list LoadedFile :=
  match ioc_info with
  | None => []
  | Some ioc_info =>
      (λ entry : string * Value,
         {| file_name := entry.1; file_hash := entry.2 |})
        <$> loaded_files ioc_info
  end.

Definition startup_file_list (ioc_info : option IocInfo) : list LoadedFile :=
  List.filter (λ f, is_startup_file (file_name f)) (all_files ioc_info).

Definition source_file_list (ioc_info : option IocInfo) : list LoadedFile :=
  List.filter (λ f, negb (is_startup_file (file_name f))) (all_files ioc_info).

(** ** Running the model on concrete inputs *)
Module demo.
(** A glob matcher for patterns made of literals, [*] (any run of
    characters) and [?] (any one character), standing for
    [wildcard-match] on names without separators. *)
Fixpoint wcmatch (pattern : string) : string → bool :=
  match pattern with
  | EmptyString => λ s, bool_decide (s = "")
  | String "*"%char rest =>
      fix star (s : string) : bool :=
        wcmatch rest s ||
        match s with
        | EmptyString => false
        | String _ s' => star s'
        end
  | String "?"%char rest =>
      λ s, match s with
           | EmptyString => false
           | String _ s' => wcmatch rest s'
           end
  | String c rest =>
      λ s, match s with
           | EmptyString => false
           | String c' s' => bool_decide (c = c') && wcmatch rest s'
           end
  end.

(** Whether [p] occurs in [s]. *)
Fixpoint occurs (p s : string) : bool :=
  String.prefix p s ||
  match s with
  | EmptyString => false
  | String _ s' => occurs p s'
  end.

Definition metacharacters : list ascii :=
  list_ascii_of_string "\^$.|?*+()[]{}".

(** [RegExp] for patterns without metacharacters, which [test] searches
    for anywhere in the name; other patterns are not supported and
    are rejected. *)
Definition RegExp (pattern : string) : option (string → bool) :=
  if bool_decide (Forall (λ c, c ∉ metacharacters) (list_ascii_of_string pattern))
  then Some (occurs pattern)
  else None.

(** A server that answers nothing. *)
Definition no_server : Server := {|
  api_ioc_matches := λ _, None;
  api_gateway_info := None;
  api_plugin_info := λ _, None;
  api_plugin_nested_keys := λ _, None;
  api_plugin_nested_info := λ _ _, None;
  api_pv_info := λ _, None;
  api_ioc_pvs := λ _ _, None;
  api_file_info := λ _, None;
  api_pv_duplicates := λ _, None;
  api_pv_relations := λ _ _ _, None;
  api_pv_matches := λ _ _ _, None;
  cache_json_gz := None;
|}.

Definition offline : list Event → Server := λ _, no_server.

Definition ai_record : RecordInstance :=
  {| record_type := "ai"; record_fields := VObj [("VAL", VNum 0)] |}.
Definition bo_record : RecordInstance :=
  {| record_type := "bo"; record_fields := VObj [] |}.

Definition ioc_of (mdata : string) (db : obj RecordInstance) (pva : obj Value)
    : IocEntry :=
  {| md := VObj [("name", VStr mdata)];
     ioc := {| shell_state :=
                 {| database := db;
                    pva_database := pva;
                    database_definition :=
                      Some {| record_types := [("ai", VObj [("dbd", VStr "ai")])] |}
                 |} |} |}.

(** IOCs [{A: [pv1, pv2], B: [pv2, pv3]}]. *)
Definition two_iocs : obj IocEntry :=
  [("A", ioc_of "A" [("pv1", ai_record); ("pv2", bo_record)] []);
   ("B", ioc_of "B" [("pv2", ai_record); ("pv3", ai_record)] [])].


(** One IOC whose records are listed out of order. *)
Definition unsorted_ioc : obj IocEntry :=
  [("A", ioc_of "A" [("b", ai_record); ("a", ai_record)] [("b", VObj [])])].

Definition snapshot_of (l : obj IocEntry) : Snapshot :=
  {| iocs := Some l;
     files := Some [("st.cmd", {| script := None; lines := Some ["a"; "b"] |})] |}.

Definition loaded (l : obj IocEntry) : World :=
  {| store := with_cache (Some (snapshot_of l)) initial_state; trace := [] |}.

(** A server that has the snapshot and answers pattern searches. *)
Definition online (l : obj IocEntry) : list Event → Server := λ _, {|
  api_ioc_matches := λ _, Some {| ioc_matches := md <$> obj_values l |};
  api_gateway_info := Some (VObj []);
  api_plugin_info := λ _, Some [];
  api_plugin_nested_keys := λ _, Some (VArr []);
  api_plugin_nested_info := λ _ _, Some (VObj []);
  api_pv_info := λ _, Some [];
  api_ioc_pvs := λ _ _, Some {| ioc_pvs_matches := [] |};
  api_file_info := λ _, Some (VObj []);
  api_pv_duplicates := λ _, Some {| doc_duplicates := ∅ |};
  api_pv_relations := λ _ _ _, Some (VObj []);
  api_pv_matches := λ p _ _,
    Some {| pv_matches := flat_map (ioc_matches_of (wcmatch p)) (obj_values l) |};
  cache_json_gz := Some (snapshot_of l);
|}.
End demo.

(** * Properties *)

(** ** The query tracker *)

Lemma mutate_tracker_inv m s : tracker_inv s → tracker_inv (mutate m s).
Proof.
  unfold tracker_inv. destruct s as [? ? ? ? ? ? ? ? ? ? n b ? ?]. simpl.
  intros [Hn Hb].
  destruct m as [| | ? ? [] | | | | | | | | | | |]; simpl;
    try (split; [exact Hn | exact Hb]).
  - split; [lia |]. split; [lia | reflexivity].
  - destruct Hb as [Hb1 Hb2].
    repeat case_decide; simpl in *; (split; [lia |]); split; intros Hq;
      first [ lia | discriminate | reflexivity | apply Hb2; lia
            | destruct b; [lia | discriminate] ].
Qed.

Lemma initial_tracker_inv : tracker_inv initial_state.
Proof. unfold tracker_inv. simpl. split; [lia |]. split; [discriminate | lia]. Qed.

Lemma reachable_tracker_inv s : reachable s → tracker_inv s.
Proof.
  induction 1 as [| m s _ IH]; [apply initial_tracker_inv |].
  by apply mutate_tracker_inv.
Qed.

Lemma mutate_all_tracker_inv ms s : tracker_inv s → tracker_inv (mutate_all ms s).
Proof.
  revert s. induction ms as [| m ms IH]; intros s Hs; [exact Hs |].
  apply IH. by apply mutate_tracker_inv.
Qed.

(** C1. From every reachable state, after each commit of any finite
    sequence of [start_query]/[end_query] commits (that is, after every
    prefix of it), [queries_in_progress] is not negative and
    [query_in_progress] is true exactly when [queries_in_progress > 0]. *)
Theorem tracker_invariant (s : State) (ms : list Mutation) (k : nat) :
  reachable s →
  Forall tracker_mutation ms →
  0 ≤ queries_in_progress (mutate_all (take k ms) s) ∧
  (query_in_progress (mutate_all (take k ms) s) = true ↔
   queries_in_progress (mutate_all (take k ms) s) > 0).
Proof.
  intros Hs _. apply mutate_all_tracker_inv. by apply reachable_tracker_inv.
Qed.

Lemma tracker_invariant_witness :
  0 ≤ queries_in_progress
        (mutate_all (take 3 [start_query; end_query; end_query; start_query])
           (mutate start_query initial_state)) ∧
  (query_in_progress
     (mutate_all (take 3 [start_query; end_query; end_query; start_query])
        (mutate start_query initial_state)) = true ↔
   queries_in_progress
     (mutate_all (take 3 [start_query; end_query; end_query; start_query])
        (mutate start_query initial_state)) > 0).
Proof.
  apply tracker_invariant.
  - apply reachable_commit, reachable_initial.
  - repeat (apply Forall_cons; split; [unfold tracker_mutation; tauto |]).
    apply Forall_nil_2.
Defined.

(** ** Running actions *)

#[local] Arguments mutate : simpl never.

Ltac unfold_monad :=
  unfold try_catch_finally, dispatch, axios_get, commit, emit, get_state, console,
    Object_values, Object_entries, member, property, unbound, throw,
    mbind, Action_bind, bind, mret, Action_ret, ret in *.

Ltac solve_extends :=
  split; simpl;
  [ first [ symmetry; apply app_nil_r
          | rewrite <- ?app_assoc; simpl; reflexivity ]
  | reflexivity ].

Ltac run_cases := unfold_monad; simpl; repeat (case_match; simplify_eq/=).

Ltac solve_balanced :=
  intros w; unfold balanced_at; run_cases;
  eexists; (split; [solve_extends | reflexivity]).


Lemma extends_refl w : extends w w [].
Proof. split; [by rewrite app_nil_r | reflexivity]. Qed.

Lemma commits_of_app evs1 evs2 :
  commits_of (evs1 ++ evs2) = commits_of evs1 ++ commits_of evs2.
Proof. apply omap_app. Qed.

Lemma mutate_all_app ms1 ms2 s :
  mutate_all (ms1 ++ ms2) s = mutate_all ms2 (mutate_all ms1 s).
Proof. apply foldl_app. Qed.

Lemma extends_trans w1 w2 w3 evs1 evs2 :
  extends w1 w2 evs1 → extends w2 w3 evs2 → extends w1 w3 (evs1 ++ evs2).
Proof.
  intros [Ht1 Hs1] [Ht2 Hs2]. split.
  - by rewrite Ht2, Ht1, app_assoc.
  - by rewrite Hs2, Hs1, commits_of_app, mutate_all_app.
Qed.

Lemma bracket_depth_app evs1 evs2 d :
  bracket_depth (evs1 ++ evs2) d = bracket_depth evs1 d ≫= bracket_depth evs2.
Proof.
  revert d. induction evs1 as [| e evs1 IH]; intros d; [reflexivity |].
  destruct e as [[] | |]; simpl; try apply IH.
  destruct d; [reflexivity | apply IH].
Qed.

Lemma paired_app evs1 evs2 : paired evs1 → paired evs2 → paired (evs1 ++ evs2).
Proof.
  unfold paired. intros H1 H2. by rewrite bracket_depth_app, H1.
Qed.

(** Commits other than the tracker's leave the counter alone. *)
Lemma counter_other m s :
  ¬ tracker_mutation m →
  queries_in_progress (mutate m s) = queries_in_progress s.
Proof.
  unfold tracker_mutation. intros Hm.
  destruct s, m as [| | ? ? [] | | | | | | | | | | |]; try reflexivity; tauto.
Qed.

Lemma counter_start s :
  queries_in_progress (mutate start_query s) = queries_in_progress s + 1.
Proof. by destruct s. Qed.

Lemma counter_end s :
  queries_in_progress (mutate end_query s) =
  if decide (queries_in_progress s > 0)
  then queries_in_progress s - 1 else queries_in_progress s.
Proof.
  destruct s as [? ? ? ? ? ? ? ? ? ? n b ? ?]. unfold mutate. simpl.
  repeat case_decide; reflexivity.
Qed.

(** What a run of events does to the counter, from its nesting depth. *)
Lemma bracket_depth_counter evs d d' s :
  bracket_depth evs d = Some d' →
  Z.of_nat d ≤ queries_in_progress s →
  queries_in_progress (mutate_all (commits_of evs) s) =
  queries_in_progress s - Z.of_nat d + Z.of_nat d'.
Proof.
  revert d s. induction evs as [| e evs IH]; intros d s Hd Hs; simpl in *.
  - simplify_eq. lia.
  - destruct e as [m | |]; simpl; [| by apply IH | by apply IH].
    assert (m = start_query ∨ m = end_query ∨ ¬ tracker_mutation m)
      as [-> | [-> | Hm]].
    { unfold tracker_mutation.
      destruct m;
        first [ by left | by right; left
              | right; right; intros [? | ?]; discriminate ]. }
    + unfold mutate_all. simpl. fold (mutate_all (commits_of evs) (mutate start_query s)).
      rewrite (IH (S d)); [| exact Hd | rewrite counter_start; lia].
      rewrite counter_start. lia.
    + destruct d as [| d0]; [discriminate |].
      unfold mutate_all. simpl. fold (mutate_all (commits_of evs) (mutate end_query s)).
      rewrite (IH d0); [| exact Hd | rewrite counter_end; case_decide; lia].
      rewrite counter_end. case_decide; lia.
    + unfold mutate_all. simpl. fold (mutate_all (commits_of evs) (mutate m s)).
      assert (bracket_depth evs d = Some d') as Hd'.
      { unfold tracker_mutation in Hm. destruct m; try exact Hd; tauto. }
      rewrite (IH d); [| exact Hd' | by rewrite counter_other; [lia |]].
      by rewrite counter_other; [lia |].
Qed.

(** A paired run leaves the counter where it was. *)
Lemma paired_counter evs s :
  paired evs → 0 ≤ queries_in_progress s →
  queries_in_progress (mutate_all (commits_of evs) s) = queries_in_progress s.
Proof.
  intros Hp Hs. rewrite (bracket_depth_counter evs 0 0); [lia | exact Hp | exact Hs].
Qed.

Lemma balanced_at_counter {A} (a : Action A) w :
  balanced_at a w → 0 ≤ queries_in_progress (store w) →
  queries_in_progress (store (a w).2) = queries_in_progress (store w).
Proof.
  intros (evs & [_ Hs] & Hp) Hw. rewrite Hs. by apply paired_counter.
Qed.

Section remote_store_runs.
Context (net : list Event → Server).
Import remote_store.

(** Every action of [remote_store] pairs its tracker commits, on every
    path. *)
Lemma remote_store_balanced :
  balanced (update_ioc_info net) ∧
  balanced (update_gateway_info net) ∧
  (∀ plugin, balanced (update_plugin_info net plugin)) ∧
  (∀ plugin, balanced (get_plugin_nested_keys net plugin)) ∧
  (∀ plugin key, balanced (get_plugin_nested_info net plugin key)) ∧
  balanced (get_record_info net) ∧
  (∀ ioc_name, balanced (get_ioc_records net ioc_name)) ∧
  (∀ filename, balanced (get_file_info net filename)) ∧
  balanced (update_duplicates net) ∧
  balanced (get_pv_relations net) ∧
  (∀ pattern max_pvs regex, balanced (find_record_matches net pattern max_pvs regex)).
Proof.
  unfold update_ioc_info, update_gateway_info, update_plugin_info,
    get_plugin_nested_keys, get_plugin_nested_info, get_record_info,
    get_ioc_records, get_file_info, update_duplicates, get_pv_relations,
    find_record_matches, query_pattern_of.
  repeat split; intros; solve_balanced.
Qed.


(** [get_record_info] raises before it does anything. *)
Lemma remote_get_record_info_raises w :
  get_record_info net w = (Throw ReferenceError, w).
Proof. reflexivity. Qed.
End remote_store_runs.

#[local] Arguments dispatch : simpl never.

Lemma commits_of_commits ms : commits_of (EvCommit <$> ms) = ms.
Proof.
  induction ms as [| m ms IH]; [reflexivity |].
  change (commits_of (EvCommit <$> m :: ms))
    with (m :: commits_of (EvCommit <$> ms)).
  by rewrite IH.
Qed.

Lemma extends_committed ms w : extends w (committed ms w) (EvCommit <$> ms).
Proof.
  split; [reflexivity |].
  rewrite commits_of_commits. reflexivity.
Qed.

Lemma committed_app ms1 ms2 w :
  committed (ms1 ++ ms2) w = committed ms2 (committed ms1 w).
Proof.
  unfold committed. simpl. by rewrite mutate_all_app, fmap_app, app_assoc.
Qed.

(** Commits of no tracker mutation are a paired run. *)
Lemma paired_commits ms :
  Forall (λ m, ¬ tracker_mutation m) ms → paired (EvCommit <$> ms).
Proof.
  unfold paired. induction 1 as [| m ms Hm _ IH]; [reflexivity |].
  unfold tracker_mutation in Hm. simpl. destruct m; try exact IH; tauto.
Qed.

Section loader.
Context (net : list Event → Server).
Import cached_local_store.

(** A loaded snapshot is handed out as it is. *)
Lemma load_cached w c :
  cache (store w) = Some c → load net w = (Return c, dispatched w).
Proof.
  intros Hc. unfold load, dispatch, load_cached_whatrecord_data.
  unfold_monad. simpl. by rewrite Hc.
Qed.

(** The outcome of the fetch decides what the first load hands out. *)
Lemma load_fetch w :
  cache (store w) = None →
  load net w =
  match cache_json_gz (net (trace (dispatched w) ++ [EvCommit start_query])) with
  | Some c =>
      (Return c,
       {| store := mutate end_query (mutate (set_cache c)
                     (mutate start_query (store w)));
          trace := trace w ++
            [EvDispatch "load_cached_whatrecord_data"; EvCommit start_query;
             EvGet {| url := "/cache.json.gz"; params := [] |} true;
             EvCommit (set_cache c); EvCommit end_query] |})
  | None =>
      (Return empty_object,
       {| store := mutate end_query (mutate start_query (store w));
          trace := trace w ++
            [EvDispatch "load_cached_whatrecord_data"; EvCommit start_query;
             EvGet {| url := "/cache.json.gz"; params := [] |} false;
             EvCommit end_query] |})
  end.
Proof.
  intros Hc. unfold load, dispatch, load_cached_whatrecord_data.
  unfold_monad. simpl. rewrite Hc. simpl.
  destruct (cache_json_gz _); simpl; rewrite <- !app_assoc; reflexivity.
Qed.

(** The loader never raises, and pairs its tracker commits. *)
Lemma load_spec w :
  ∃ c w1 evs, load net w = (Return c, w1) ∧ extends w w1 evs ∧ paired evs.
Proof.
  destruct (cache (store w)) as [c |] eqn:Hc.
  - rewrite (load_cached w c Hc). eexists _, _, _.
    split; [reflexivity |]. split; [solve_extends | reflexivity].
  - rewrite (load_fetch w Hc). destruct (cache_json_gz _);
      (eexists _, _, _; split; [reflexivity |];
       split; [solve_extends | reflexivity]).
Qed.

End loader.

Section scans.
Context (net : list Event → Server).
Context (wcmatch : string → string → bool).
Context (RegExp : string → option (string → bool)).
Import cached_local_store.

Lemma load_unfold w :
  load_cached_whatrecord_data net
    {| store := store w;
       trace := trace w ++ [EvDispatch "load_cached_whatrecord_data"] |} =
  load net w.
Proof. reflexivity. Qed.

Lemma update_ioc_info_hit w :
  ioc_info (store w) ≠ [] →
  update_ioc_info net w = (Return (Some (ioc_info (store w))), w).
Proof.
  intros Hm. unfold update_ioc_info. unfold_monad. simpl.
  destruct (ioc_info (store w)); [done | reflexivity].
Qed.

Lemma update_ioc_info_miss w c w1 :
  ioc_info (store w) = [] →
  load net w = (Return c, w1) →
  update_ioc_info net w =
  match iocs c with
  | Some l => (Return None, committed [set_ioc_info (md <$> obj_values l)] w1)
  | None => (Throw TypeError, w1)
  end.
Proof.
  intros Hm Hl. unfold update_ioc_info. unfold_monad. simpl.
  rewrite Hm. simpl. rewrite load_unfold, Hl. by destruct (iocs c).
Qed.

(** The loop of [get_record_info] commits one single-entry result for
    each contribution, in scan order. *)
Lemma get_record_info_loop record_name values w :
  for_of values (get_record_info_step record_name) w =
  (Return tt,
   committed
     ((λ h, add_record_info record_name (single_info record_name h)) <$>
        flat_map (source_hits record_name) values) w).
Proof.
  revert w. induction values as [| e values IH]; intros w.
  - unfold committed. simpl. by rewrite app_nil_r; destruct w.
  - simpl. rewrite fmap_app, committed_app.
    unfold mbind, Action_bind, bind at 1.
    assert (get_record_info_step record_name e w =
            (Return tt,
             committed ((λ h, add_record_info record_name
                                (single_info record_name h)) <$>
                          source_hits record_name e) w)) as ->.
    { unfold get_record_info_step, source_hits. unfold_monad.
      destruct (obj_get (database _) _) as [v3 |];
        destruct (obj_get (pva_database _) _) as [v4 |];
        try destruct (not_null v4); simpl;
        unfold committed; simpl; rewrite <- ?app_assoc, ?app_nil_r; simpl;
        try reflexivity; by destruct w. }
    apply IH.
Qed.

Lemma get_record_info_hit record_name w i :
  record_info (store w) !! record_name = Some i →
  get_record_info net record_name w = (Return (Some i), w).
Proof.
  intros Hm. unfold get_record_info. unfold_monad. simpl. by rewrite Hm.
Qed.

Lemma get_record_info_miss record_name w c w1 :
  record_info (store w) !! record_name = None →
  load net w = (Return c, w1) →
  get_record_info net record_name w =
  match iocs c with
  | Some l =>
      (Return None,
       committed
         ((λ h, add_record_info record_name (single_info record_name h)) <$>
            flat_map (source_hits record_name) (obj_values l)) w1)
  | None => (Throw TypeError, w1)
  end.
Proof.
  intros Hm Hl. unfold get_record_info. unfold_monad. simpl.
  rewrite Hm. simpl. rewrite load_unfold, Hl.
  destruct (iocs c) as [l |]; [| reflexivity].
  pose proof (get_record_info_loop record_name (obj_values l) w1) as Hloop.
  unfold_monad. by rewrite Hloop.
Qed.

Lemma get_ioc_records_run ioc_name w c w1 :
  load net w = (Return c, w1) →
  get_ioc_records net ioc_name w =
  match iocs c ≫= λ l, obj_get l ioc_name with
  | Some e =>
      let records :=
        (v3_record <$> obj_values (database (shell_state (ioc e)))) ++
        (v4_record <$> obj_values (pva_database (shell_state (ioc e)))) in
      (Return records, committed [set_ioc_records ioc_name records] w1)
  | None => (Throw TypeError, w1)
  end.
Proof.
  intros Hl. unfold get_ioc_records. unfold_monad. simpl.
  rewrite load_unfold, Hl.
  destruct (iocs c) as [l |]; [| reflexivity]. simpl.
  by destruct (obj_get l ioc_name).
Qed.

Lemma get_file_info_hit filename w i :
  file_info (store w) !! filename = Some i →
  get_file_info net filename w = (Return (Some i), w).
Proof.
  intros Hm. unfold get_file_info. unfold_monad. simpl. by rewrite Hm.
Qed.

Lemma get_file_info_miss filename w c w1 :
  file_info (store w) !! filename = None →
  load net w = (Return c, w1) →
  (files c = None ∧ get_file_info net filename w = (Throw TypeError, w1)) ∨
  (is_Some (files c) ∧
   ∃ ms, get_file_info net filename w = (Return None, committed ms w1) ∧
         Forall (λ m, ¬ tracker_mutation m) ms).
Proof.
  intros Hm Hl. unfold get_file_info. unfold_monad. simpl.
  rewrite Hm. simpl. rewrite load_unfold, Hl.
  destruct (files c) as [l |]; [right | by left]. split; [done |]. simpl.
  case_bool_decide.
  - exists [set_file_info filename
              (file_cached (default {| script := None; lines := None |}
                              (obj_get l filename)))].
    split; [reflexivity |].
    apply Forall_singleton. intros [? | ?]; discriminate.
  - destruct (option_bind _ _ lines _) as [raw_lines |].
    + exists [set_file_info filename
                (file_script filename
                   (imap (λ lineno line,
                            {| context := [(filename, Z.of_nat lineno + 1)];
                               line := line |}) raw_lines))].
      split; [reflexivity |].
      apply Forall_singleton. intros [? | ?]; discriminate.
    + exists []. split; [| constructor].
      unfold committed. simpl. rewrite app_nil_r. by destruct w1.
Qed.

Lemma update_duplicates_hit w :
  (0 < size (duplicates (store w)))%nat →
  update_duplicates net w = (Return (Some (duplicates (store w))), w).
Proof.
  intros Hm. unfold update_duplicates. unfold_monad. simpl.
  by rewrite bool_decide_eq_true_2.
Qed.

Lemma update_duplicates_miss w c w1 :
  duplicates (store w) = ∅ →
  load net w = (Return c, w1) →
  update_duplicates net w =
  match iocs c with
  | Some l =>
      (Return None,
       committed [set_duplicates (delete_singles (foldl push_ioc ∅ l))] w1)
  | None => (Throw TypeError, w1)
  end.
Proof.
  intros Hm Hl. unfold update_duplicates. unfold_monad. simpl.
  rewrite Hm, map_size_empty. simpl. rewrite load_unfold, Hl.
  by destruct (iocs c).
Qed.

Lemma find_record_matches_absent max_pvs regex w :
  find_record_matches net wcmatch RegExp None max_pvs regex w = (Return None, w).
Proof. reflexivity. Qed.

Lemma find_record_matches_hit pattern max_pvs regex w l :
  pv_cache regex (store w) !! pattern = Some l →
  find_record_matches net wcmatch RegExp (Some pattern) max_pvs regex w =
  (Return (Some l), w).
Proof.
  intros Hm. unfold find_record_matches, pv_cache in *. unfold_monad. simpl.
  destruct regex; simpl; rewrite Hm; reflexivity.
Qed.

Lemma find_record_matches_miss pattern max_pvs regex w c w1 :
  pv_cache regex (store w) !! pattern = None →
  load net w = (Return c, w1) →
  find_record_matches net wcmatch RegExp (Some pattern) max_pvs regex w =
  match compile_matcher wcmatch RegExp pattern regex with
  | None => (Return None, w1)
  | Some matcher =>
      match iocs c with
      | Some l =>
          let matches := flat_map (ioc_matches_of matcher) (obj_values l) in
          (Return (Some matches),
           committed
             [add_record_search_results pattern
                (Array_sort (Array_from_Set matches)) regex;
              end_query] w1)
      | None => (Throw TypeError, w1)
      end
  end.
Proof.
  intros Hm Hl. unfold find_record_matches, pv_cache in *. unfold_monad. simpl.
  assert (negb regex && bool_decide (is_Some (glob_to_pvs (store w) !! pattern))
          = false) as ->.
  { destruct regex; [done |]. simpl. rewrite Hm.
    apply bool_decide_eq_false_2. by intros [? ?]. }
  assert (regex && bool_decide (is_Some (regex_to_pvs (store w) !! pattern))
          = false) as ->.
  { destruct regex; [| done]. simpl. rewrite Hm.
    apply bool_decide_eq_false_2. by intros [? ?]. }
  rewrite load_unfold, Hl.
  destruct (compile_matcher _ _ _ _); [| reflexivity].
  destruct (iocs c); [| reflexivity]. simpl.
  unfold committed. simpl. by rewrite <- app_assoc.
Qed.
End scans.

Lemma committed_nil w : committed [] w = w.
Proof. unfold committed. simpl. rewrite app_nil_r. by destruct w. Qed.

Lemma pv_cache_add regex pattern l s :
  pv_cache regex (mutate (add_record_search_results pattern l regex) s) !! pattern
  = Some l.
Proof. destruct s, regex; apply lookup_insert_eq. Qed.

Lemma pv_cache_end regex s : pv_cache regex (mutate end_query s) = pv_cache regex s.
Proof.
  destruct s, regex; unfold mutate; simpl; repeat case_decide; reflexivity.
Qed.

Section remote_search.
Context (net : list Event → Server).
Import remote_store.

Lemma remote_find_absent max_pvs regex w :
  find_record_matches net None max_pvs regex w = (Return None, w).
Proof. reflexivity. Qed.

Lemma remote_find_hit pattern max_pvs regex w l :
  pv_cache regex (store w) !! pattern = Some l →
  find_record_matches net (Some pattern) max_pvs regex w = (Return (Some l), w).
Proof.
  intros Hm. unfold find_record_matches, pv_cache in *. unfold_monad. simpl.
  destruct regex; simpl; rewrite Hm; reflexivity.
Qed.

(** A search that is not in the memo asks the server for
    [query_pattern_of pattern regex] and files the answer under
    [pattern]; a failed request commits nothing but the tracker's pair. *)
Lemma remote_find_miss pattern max_pvs regex w :
  pv_cache regex (store w) !! pattern = None →
  let request :=
    {| url := "/api/pv/matches";
       params := [("pattern", VStr (query_pattern_of pattern regex));
                  ("max", max_pvs); ("regex", VBool regex)] |} in
  find_record_matches net (Some pattern) max_pvs regex w =
  match api_pv_matches (net (trace w ++ [EvCommit start_query]))
          (query_pattern_of pattern regex) max_pvs regex with
  | Some response =>
      (Return (Some (pv_matches response)),
       {| store :=
            mutate end_query
              (mutate (add_record_search_results pattern (pv_matches response) regex)
                 (mutate start_query (store w)));
          trace := trace w ++
            [EvCommit start_query; EvGet request true;
             EvCommit (add_record_search_results pattern (pv_matches response) regex);
             EvCommit end_query] |})
  | None =>
      (Return None,
       {| store := mutate end_query (mutate start_query (store w));
          trace := trace w ++
            [EvCommit start_query; EvGet request false; EvCommit end_query] |})
  end.
Proof.
  intros Hm request. unfold find_record_matches, pv_cache in *.
  unfold_monad. simpl.
  assert (negb regex && bool_decide (is_Some (glob_to_pvs (store w) !! pattern))
          = false) as ->.
  { destruct regex; [done |]. simpl. rewrite Hm.
    apply bool_decide_eq_false_2. by intros [? ?]. }
  assert (regex && bool_decide (is_Some (regex_to_pvs (store w) !! pattern))
          = false) as ->.
  { destruct regex; [| done]. simpl. rewrite Hm.
    apply bool_decide_eq_false_2. by intros [? ?]. }
  simpl. destruct (api_pv_matches _ _ _ _); simpl;
    rewrite <- !app_assoc; reflexivity.
Qed.
End remote_search.

Section cached_local_store_runs.
Context (net : list Event → Server).
Context (wcmatch : string → string → bool).
Context (RegExp : string → option (string → bool)).
Import cached_local_store.

(** An action that loads the snapshot and then commits no tracker
    mutation pairs its tracker commits. *)
Lemma balanced_after_load {A} (a : Action A) w c w1 r ms :
  load net w = (Return c, w1) →
  a w = (r, committed ms w1) →
  Forall (λ m, ¬ tracker_mutation m) ms →
  balanced_at a w.
Proof.
  intros Hl Ha Hms.
  destruct (load_spec net w) as (c' & w1' & evs & Hl' & Hext & Hp).
  rewrite Hl in Hl'. simplify_eq.
  exists (evs ++ (EvCommit <$> ms)). rewrite Ha. split.
  - eapply extends_trans; [exact Hext | apply extends_committed].
  - apply paired_app; [exact Hp | by apply paired_commits].
Qed.

Lemma balanced_unchanged {A} (a : Action A) w r : a w = (r, w) → balanced_at a w.
Proof.
  intros Ha. exists []. rewrite Ha. split; [apply extends_refl | reflexivity].
Qed.

(** The actions of [cached_local_store] that talk to the server pair
    their tracker commits, and so does the loader. *)
Lemma cached_requests_balanced :
  balanced (load_cached_whatrecord_data net) ∧
  balanced (update_gateway_info net) ∧
  (∀ plugin, balanced (update_plugin_info net plugin)) ∧
  (∀ plugin, balanced (get_plugin_nested_keys net plugin)) ∧
  (∀ plugin key, balanced (get_plugin_nested_info net plugin key)) ∧
  balanced (get_pv_relations net).
Proof.
  unfold load_cached_whatrecord_data, update_gateway_info, update_plugin_info,
    get_plugin_nested_keys, get_plugin_nested_info, get_pv_relations.
  repeat split; intros; solve_balanced.
Qed.


Lemma not_tracker_singleton m :
  ¬ tracker_mutation m → Forall (λ m, ¬ tracker_mutation m) [m].
Proof. intros Hm. by apply Forall_singleton. Qed.

(** The scanning actions other than [find_record_matches] commit no
    tracker mutation of their own: the loader's pair is all there is. *)
Lemma cached_scans_balanced :
  balanced (update_ioc_info net) ∧
  (∀ record_name, balanced (get_record_info net record_name)) ∧
  (∀ ioc_name, balanced (get_ioc_records net ioc_name)) ∧
  (∀ filename, balanced (get_file_info net filename)) ∧
  balanced (update_duplicates net).
Proof.
  repeat split; intros; intros w;
    destruct (load_spec net w) as (c & w1 & evs & Hl & _ & _).
  - destruct (ioc_info (store w)) as [| v vs] eqn:Hm.
    + pose proof (update_ioc_info_miss net w c w1 Hm Hl) as Hrun.
      destruct (iocs c).
      * eapply balanced_after_load; [exact Hl | exact Hrun |].
        apply not_tracker_singleton. intros [? | ?]; discriminate.
      * eapply (balanced_after_load _ _ _ _ _ []); [exact Hl | | constructor].
        by rewrite committed_nil.
    + eapply balanced_unchanged. apply update_ioc_info_hit. by rewrite Hm.
  - destruct (record_info (store w) !! record_name) as [i |] eqn:Hm.
    + eapply balanced_unchanged. by apply get_record_info_hit.
    + pose proof (get_record_info_miss net record_name w c w1 Hm Hl) as Hrun.
      destruct (iocs c).
      * eapply balanced_after_load; [exact Hl | exact Hrun |].
        apply Forall_fmap, Forall_forall. intros h _ [? | ?]; discriminate.
      * eapply (balanced_after_load _ _ _ _ _ []); [exact Hl | | constructor].
        by rewrite committed_nil.
  - pose proof (get_ioc_records_run net ioc_name w c w1 Hl) as Hrun.
    destruct (iocs c ≫= _).
    + eapply balanced_after_load; [exact Hl | exact Hrun |].
      apply not_tracker_singleton. intros [? | ?]; discriminate.
    + eapply (balanced_after_load _ _ _ _ _ []); [exact Hl | | constructor].
      by rewrite committed_nil.
  - destruct (file_info (store w) !! filename) as [i |] eqn:Hm.
    + eapply balanced_unchanged. by apply get_file_info_hit.
    + destruct (get_file_info_miss net filename w c w1 Hm Hl)
        as [[_ Hrun] | [_ (ms & Hrun & Hms)]].
      * eapply (balanced_after_load _ _ _ _ _ []); [exact Hl | | constructor].
        by rewrite committed_nil.
      * eapply balanced_after_load; [exact Hl | exact Hrun | exact Hms].
  - destruct (decide (duplicates (store w) = ∅)) as [Hm | Hm].
    + pose proof (update_duplicates_miss net w c w1 Hm Hl) as Hrun.
      destruct (iocs c).
      * eapply balanced_after_load; [exact Hl | exact Hrun |].
        apply not_tracker_singleton. intros [? | ?]; discriminate.
      * eapply (balanced_after_load _ _ _ _ _ []); [exact Hl | | constructor].
        by rewrite committed_nil.
    + eapply balanced_unchanged. apply update_duplicates_hit.
      apply map_size_non_empty_iff in Hm. lia.
Qed.
End cached_local_store_runs.


Lemma extends_unique w w' evs evs' : extends w w' evs → extends w w' evs' → evs = evs'.
Proof.
  intros [Ht _] [Ht' _]. rewrite Ht in Ht'. by apply app_inv_head in Ht'.
Qed.

(** ** The tracker contract of the entry points *)

Section tracker_contract.
Context (net : list Event → Server).
Context (wcmatch : string → string → bool).
Context (RegExp : string → option (string → bool)).
Import cached_local_store.

(** C2 (the code departs from it). A pattern search of
    [cached_local_store] that scans the snapshot (pattern not in the
    memo, pattern compiles, snapshot has [iocs]) commits [end_query] in
    its [finally] but never [start_query]: its tracker commits are not
    paired, and when another query is in flight the counter goes down
    by one. *)
Theorem find_record_matches_unpaired_end_query
    (pattern : string) (max_pvs : Value) (regex : bool) (w w1 : World)
    (c : Snapshot) (l : obj IocEntry) (matcher : string → bool) :
  pv_cache regex (store w) !! pattern = None →
  load net w = (Return c, w1) →
  iocs c = Some l →
  compile_matcher wcmatch RegExp pattern regex = Some matcher →
  let search := find_record_matches net wcmatch RegExp (Some pattern) max_pvs regex in
  ¬ balanced_at search w ∧
  (queries_in_progress (store w) > 0 →
   queries_in_progress (store (search w).2) = queries_in_progress (store w) - 1).
Proof.
  intros Hm Hl Hc Hmatcher. cbv zeta.
  pose proof (find_record_matches_miss net wcmatch RegExp pattern max_pvs regex
                w c w1 Hm Hl) as Hrun.
  rewrite Hmatcher, Hc in Hrun. cbv zeta in Hrun.
  unfold balanced_at. rewrite Hrun. clear Hrun.
  destruct (load_spec net w) as (c' & w1' & evs & Hl' & Hext & Hp).
  assert (c' = c ∧ w1' = w1) as [-> ->]
    by (rewrite Hl in Hl'; by simplify_eq).
  set (ms := [add_record_search_results pattern _ regex; end_query]).
  assert (extends w (committed ms w1) (evs ++ (EvCommit <$> ms))) as Hall.
  { eapply extends_trans; [exact Hext | apply extends_committed]. }
  split.
  - intros (evs' & Hext' & Hp').
    rewrite <- (extends_unique _ _ _ _ Hall Hext') in Hp'.
    unfold paired in Hp, Hp'. rewrite bracket_depth_app, Hp in Hp'.
    discriminate.
  - intros Hbusy. destruct Hall as [_ Hstore].
    change (store (_, committed ms w1).2) with (store (committed ms w1)).
    rewrite Hstore, commits_of_app, mutate_all_app, commits_of_commits.
    unfold ms, mutate_all. simpl. fold (mutate_all (commits_of evs) (store w)).
    rewrite counter_end, counter_other by (intros [? | ?]; discriminate).
    rewrite paired_counter by (exact Hp || lia).
    case_decide; lia.
Qed.
End tracker_contract.

Lemma find_record_matches_unpaired_end_query_witness :
  let w := committed [start_query] (demo.loaded demo.two_iocs) in
  let search :=
    cached_local_store.find_record_matches demo.offline demo.wcmatch demo.RegExp
      (Some "pv*") VUndefined false in
  ¬ balanced_at search w ∧
  (queries_in_progress (store w) > 0 →
   queries_in_progress (store (search w).2) = queries_in_progress (store w) - 1).
Proof.
  intros w search.
  eapply (find_record_matches_unpaired_end_query demo.offline demo.wcmatch
            demo.RegExp "pv*" VUndefined false w);
    [reflexivity | reflexivity | reflexivity | reflexivity].
Defined.

(** ** Failed requests *)




Section failed_requests.
Context (net : list Event → Server).


End failed_requests.

(** ** Errors at the entry points *)

Section scans_return.
Context (net : list Event → Server).
Context (wcmatch : string → string → bool).
Context (RegExp : string → option (string → bool)).
Import cached_local_store.






End scans_return.





(** ** The pattern memo *)

Section pattern_memo.
Context (net : list Event → Server).
Context (wcmatch : string → string → bool).
Context (RegExp : string → option (string → bool)).

(** Once a search for a pattern has returned a list, the same search
    again (whatever [max_pvs]) is answered from the per-(pattern,
    is_regex) memo: it returns the memo's entry and leaves store and log
    as they were, so there is no request, no snapshot load and no commit.
    In [remote_store] the entry is the list the first search returned. *)
Lemma repeated_search_from_memo
    (pattern : string) (max_pvs max_pvs' : Value) (regex : bool)
    (w : World) (l : list string) :
  (let first := remote_store.find_record_matches net (Some pattern) max_pvs regex w in
   first.1 = Return (Some l) →
   remote_store.find_record_matches net (Some pattern) max_pvs' regex first.2 =
   (Return (Some l), first.2)) ∧
  (let first :=
     cached_local_store.find_record_matches net wcmatch RegExp
       (Some pattern) max_pvs regex w in
   first.1 = Return (Some l) →
   ∃ l', pv_cache regex (store first.2) !! pattern = Some l' ∧
         cached_local_store.find_record_matches net wcmatch RegExp
           (Some pattern) max_pvs' regex first.2 =
         (Return (Some l'), first.2)).
Proof.
  split; cbv zeta.
  - destruct (pv_cache regex (store w) !! pattern) as [l0 |] eqn:Hm.
    + rewrite (remote_find_hit net pattern max_pvs regex w l0 Hm).
      simpl fst. simpl snd. intros [= ->].
      exact (remote_find_hit net pattern max_pvs' regex w l Hm).
    + rewrite (remote_find_miss net pattern max_pvs regex w Hm).
      destruct (api_pv_matches _ _ _ _) as [response |];
        simpl fst; simpl snd; [| done].
      intros [= <-]. apply remote_find_hit. simpl.
      by rewrite pv_cache_end, pv_cache_add.
  - destruct (pv_cache regex (store w) !! pattern) as [l0 |] eqn:Hm.
    + rewrite (find_record_matches_hit net wcmatch RegExp pattern max_pvs
                 regex w l0 Hm). simpl fst. simpl snd.
      intros _. exists l0. split; [exact Hm |].
      exact (find_record_matches_hit net wcmatch RegExp pattern max_pvs'
               regex w l0 Hm).
    + destruct (load_spec net w) as (c & w1 & evs & Hl & _ & _).
      rewrite (find_record_matches_miss net wcmatch RegExp pattern max_pvs
                 regex w c w1 Hm Hl).
      destruct (cached_local_store.compile_matcher _ _ _ _) as [matcher |];
        [| done].
      destruct (iocs c) as [l1 |]; [| done]. cbv zeta. simpl fst. simpl snd.
      intros _. eexists. split.
      * unfold committed, mutate_all. simpl.
        rewrite pv_cache_end, pv_cache_add. reflexivity.
      * apply find_record_matches_hit.
        unfold committed, mutate_all. simpl.
        by rewrite pv_cache_end, pv_cache_add.
Qed.

(** C4 (the code departs from it). A snapshot search that scans (pattern
    not in the memo, pattern compiles, snapshot has [iocs]) returns the
    names as it collected them, but files their sorted, duplicate-free
    list in the memo. The same search again is answered from the memo, with
    no request, no load and no commit, and returns the filed list: not
    the list the first search returned, unless the names were collected
    in order and without repetition. *)
Theorem repeated_search_returns_filed_list
    (pattern : string) (max_pvs max_pvs' : Value) (regex : bool) (w w1 : World)
    (c : Snapshot) (l : obj IocEntry) (matcher : string → bool) :
  pv_cache regex (store w) !! pattern = None →
  load net w = (Return c, w1) →
  iocs c = Some l →
  cached_local_store.compile_matcher wcmatch RegExp pattern regex = Some matcher →
  let matches := flat_map (ioc_matches_of matcher) (obj_values l) in
  let first :=
    cached_local_store.find_record_matches net wcmatch RegExp
      (Some pattern) max_pvs regex w in
  first.1 = Return (Some matches) ∧
  cached_local_store.find_record_matches net wcmatch RegExp
    (Some pattern) max_pvs' regex first.2 =
  (Return (Some (Array_sort (Array_from_Set matches))), first.2).
Proof.
  intros Hm Hl Hc Hmatcher. cbv zeta.
  rewrite (find_record_matches_miss net wcmatch RegExp pattern max_pvs regex
             w c w1 Hm Hl), Hmatcher, Hc.
  cbv zeta. simpl fst. simpl snd. split; [reflexivity |].
  apply find_record_matches_hit.
  unfold committed, mutate_all. simpl.
  by rewrite pv_cache_end, pv_cache_add.
Qed.

(** C7 (as amended). An absent pattern is not searched: both stores
    return [undefined] at once and touch nothing. An empty pattern is
    searched: [remote_store] asks the server for [*] in glob mode and
    for [.*] in regex mode, and files and returns the answer under the
    empty pattern. *)
Theorem absent_and_empty_pattern (max_pvs : Value) (regex : bool) (w : World) :
  remote_store.find_record_matches net None max_pvs regex w = (Return None, w) ∧
  cached_local_store.find_record_matches net wcmatch RegExp None max_pvs regex w
  = (Return None, w) ∧
  (pv_cache regex (store w) !! "" = None →
   let match_all := if regex then ".*" else "*" in
   let request :=
     {| url := "/api/pv/matches";
        params := [("pattern", VStr match_all); ("max", max_pvs);
                   ("regex", VBool regex)] |} in
   remote_store.find_record_matches net (Some "") max_pvs regex w =
   match api_pv_matches (net (trace w ++ [EvCommit start_query]))
           match_all max_pvs regex with
   | Some response =>
       (Return (Some (pv_matches response)),
        {| store :=
             mutate end_query
               (mutate (add_record_search_results "" (pv_matches response) regex)
                  (mutate start_query (store w)));
           trace := trace w ++
             [EvCommit start_query; EvGet request true;
              EvCommit (add_record_search_results "" (pv_matches response) regex);
              EvCommit end_query] |})
   | None =>
       (Return None,
        {| store := mutate end_query (mutate start_query (store w));
           trace := trace w ++
             [EvCommit start_query; EvGet request false; EvCommit end_query] |})
   end).
Proof.
  split; [reflexivity |]. split; [reflexivity |].
  intros Hm. exact (remote_find_miss net "" max_pvs regex w Hm).
Qed.
End pattern_memo.

(** A search whose request failed is not remembered: the same search
    again sends the request again. *)
Lemma failed_search_is_repeated :
  let search :=
    remote_store.find_record_matches demo.offline (Some "pv*") VUndefined false in
  let first := search initial_world in
  let second := search first.2 in
  first.1 = Return None ∧
  requests_of (drop (length (trace first.2)) (trace second.2)) =
  [{| url := "/api/pv/matches";
      params := [("pattern", VStr "pv*"); ("max", VUndefined);
                 ("regex", VBool false)] |}].
Proof. split; reflexivity. Qed.

Lemma repeated_search_returns_filed_list_witness :
  let search :=
    cached_local_store.find_record_matches demo.offline demo.wcmatch demo.RegExp
      (Some "*") in
  let first := search VUndefined false (demo.loaded demo.unsorted_ioc) in
  first.1 = Return (Some ["b"; "a"; "b"]) ∧
  search (VNum 10) false first.2 = (Return (Some ["a"; "b"]), first.2).
Proof.
  exact (repeated_search_returns_filed_list demo.offline demo.wcmatch demo.RegExp
           "*" VUndefined (VNum 10) false (demo.loaded demo.unsorted_ioc) _ _
           demo.unsorted_ioc (demo.wcmatch "*") eq_refl eq_refl eq_refl eq_refl).
Defined.

(** C7, the claim as stated fails: with an absent pattern the search
    returns [undefined], not the names of the snapshot. *)
Lemma absent_pattern_returns_undefined :
  cached_local_store.find_record_matches demo.offline demo.wcmatch demo.RegExp
    None VUndefined false (demo.loaded demo.two_iocs) =
  (Return None, demo.loaded demo.two_iocs) ∧
  flat_map ioc_names (obj_values demo.two_iocs) = ["pv1"; "pv2"; "pv2"; "pv3"].
Proof. split; reflexivity. Qed.

Lemma absent_and_empty_pattern_witness :
  (remote_store.find_record_matches (demo.online demo.two_iocs)
     (Some "") VUndefined false initial_world).1 =
  Return (Some ["pv1"; "pv2"; "pv2"; "pv3"]) ∧
  requests_of
    (trace (remote_store.find_record_matches (demo.online demo.two_iocs)
              (Some "") VUndefined false initial_world).2) =
  [{| url := "/api/pv/matches";
      params := [("pattern", VStr "*"); ("max", VUndefined);
                 ("regex", VBool false)] |}].
Proof.
  destruct (absent_and_empty_pattern (demo.online demo.two_iocs) demo.wcmatch
              demo.RegExp VUndefined false initial_world) as (_ & _ & Hempty).
  rewrite (Hempty eq_refl). split; reflexivity.
Defined.

(** C5 (the code departs from it). On a snapshot whose one IOC lists
    [b], [a] in its database and [b] among its PVA groups, the glob search
    for [*] returns the names as collected, unsorted and with [b] twice;
    the sorted, duplicate-free list is only filed in the memo. *)
Theorem search_returns_matches_as_collected :
  let first :=
    cached_local_store.find_record_matches demo.offline demo.wcmatch demo.RegExp
      (Some "*") VUndefined false (demo.loaded demo.unsorted_ioc) in
  first.1 = Return (Some ["b"; "a"; "b"]) ∧
  glob_to_pvs (store first.2) !! "*" = Some ["a"; "b"] ∧
  commits_of (trace first.2) =
    [add_record_search_results "*" ["a"; "b"] false; end_query].
Proof. repeat split; reflexivity. Qed.

(** ** Per-PV results of the snapshot store *)




Section per_pv.
Context (net : list Event → Server).
Import cached_local_store.





End per_pv.



(** ** Duplicate detection *)









Section duplicate_detection.
Context (net : list Event → Server).
Import cached_local_store.

End duplicate_detection.



(** ** What a snapshot search files in the memo *)


#[local] Instance str_le_total : Total str_le.
Proof. intros a b. apply String.leb_total. Qed.



(** * Further properties *)

(** ** The tracker over whole runs *)

Lemma new_events_app w w' evs : trace w' = trace w ++ evs → new_events w w' = evs.
Proof. unfold new_events. intros ->. apply drop_app_length. Qed.

Lemma at_counter_id s : tracker_inv s → at_counter (queries_in_progress s) s = s.
Proof.
  destruct s as [? ? ? ? ? ? ? ? ? ? n b ? ?]. unfold tracker_inv, at_counter.
  simpl. intros [Hn [Hb1 Hb2]]. f_equal.
  case_bool_decide; destruct b; try reflexivity.
  - symmetry. by apply Hb2.
  - exfalso. specialize (Hb1 eq_refl). lia.
Qed.

Lemma at_counter_start n s :
  0 ≤ n → mutate start_query (at_counter n s) = at_counter (n + 1) s.
Proof.
  intros Hn. destruct s. unfold at_counter, mutate. simpl. f_equal.
  symmetry. apply bool_decide_eq_true_2. lia.
Qed.

Lemma at_counter_end n s :
  1 ≤ n → mutate end_query (at_counter n s) = at_counter (n - 1) s.
Proof.
  intros Hn. destruct s. unfold at_counter, mutate. simpl.
  repeat case_decide; simpl in *; try lia; f_equal;
    repeat case_bool_decide; try reflexivity; lia.
Qed.

Lemma tracker_run ms : ∀ d d' n s,
  Forall tracker_mutation ms →
  bracket_depth (EvCommit <$> ms) d = Some d' →
  Z.of_nat d ≤ n →
  mutate_all ms (at_counter n s) = at_counter (n - Z.of_nat d + Z.of_nat d') s.
Proof.
  induction ms as [| m ms IH]; intros d d' n s Hms Hd Hn.
  - simpl in Hd. simplify_eq. unfold mutate_all. simpl. f_equal. lia.
  - apply Forall_cons in Hms as [Hm Hms]. rewrite fmap_cons in Hd.
    unfold mutate_all. simpl. fold (mutate_all ms (mutate m (at_counter n s))).
    destruct Hm as [-> | ->]; simpl in Hd.
    + rewrite at_counter_start by lia.
      rewrite (IH (S d) d' _ _ Hms Hd) by lia. f_equal. lia.
    + destruct d as [| d0]; [discriminate |].
      rewrite at_counter_end by lia.
      rewrite (IH d0 d' _ _ Hms Hd) by lia. f_equal. lia.
Qed.

(** X1. However queries overlap, once every [start_query] has met its
    [end_query] the store is back where it was: a paired run of tracker
    commits, applied to a store that satisfies the tracker invariant,
    gives back that very store. *)
Theorem paired_tracker_run_restores (ms : list Mutation) (s : State) :
  tracker_inv s →
  Forall tracker_mutation ms →
  paired (EvCommit <$> ms) →
  mutate_all ms s = s.
Proof.
  intros Hs Hms Hp. rewrite <- (at_counter_id s Hs) at 1.
  rewrite (tracker_run ms 0 0 _ _ Hms Hp).
  - replace (queries_in_progress s - Z.of_nat 0 + Z.of_nat 0)
      with (queries_in_progress s) by (simpl; lia).
    by apply at_counter_id.
  - unfold tracker_inv in Hs. simpl. lia.
Qed.

Lemma paired_tracker_run_restores_witness :
  mutate_all [start_query; start_query; end_query; start_query; end_query; end_query]
    (mutate (set_gateway_info (VStr "gw")) initial_state) =
  mutate (set_gateway_info (VStr "gw")) initial_state.
Proof.
  apply paired_tracker_run_restores.
  - apply reachable_tracker_inv, reachable_commit, reachable_initial.
  - repeat (apply Forall_cons; split; [unfold tracker_mutation; tauto |]).
    apply Forall_nil_2.
  - reflexivity.
Defined.

Lemma tracker_pair_restores s :
  tracker_inv s → mutate end_query (mutate start_query s) = s.
Proof.
  intros Hs.
  rewrite <- (at_counter_id s Hs), at_counter_start, at_counter_end
    by (destruct Hs; lia).
  f_equal. lia.
Qed.

Lemma extends_tracker_inv w w' evs :
  extends w w' evs → tracker_inv (store w) → tracker_inv (store w').
Proof. intros [_ ->]. apply mutate_all_tracker_inv. Qed.

Lemma balanced_keeps_tracker {A} (a : Action A) : balanced a → keeps_tracker a.
Proof.
  intros Hb w Hw. destruct (Hb w) as (evs & Hext & Hp).
  assert (queries_in_progress (store (a w).2) = queries_in_progress (store w))
    as Hq.
  { apply balanced_at_counter; [by exists evs | apply Hw]. }
  split; [exact Hq |].
  destruct (extends_tracker_inv _ _ _ Hext Hw) as [_ Hflag'].
  destruct Hw as [_ Hflag]. rewrite Hq in Hflag'.
  destruct (query_in_progress (store (a w).2)), (query_in_progress (store w));
    try reflexivity.
  - symmetry. apply Hflag, Hflag'. reflexivity.
  - apply Hflag', Hflag. reflexivity.
Qed.

Section whole_runs.
Context (net : list Event → Server).

(** X2. Every action of [remote_store], and every action of
    [cached_local_store] other than [find_record_matches], leaves
    [queries_in_progress] and [query_in_progress] as it found them, on
    every path (memo hit, answered request, failed request, raised
    error), when it starts from a store that satisfies the tracker
    invariant. *)
Theorem entry_points_keep_tracker :
  (keeps_tracker (remote_store.update_ioc_info net) ∧
   keeps_tracker (remote_store.update_gateway_info net) ∧
   (∀ plugin, keeps_tracker (remote_store.update_plugin_info net plugin)) ∧
   (∀ plugin, keeps_tracker (remote_store.get_plugin_nested_keys net plugin)) ∧
   (∀ plugin key,
      keeps_tracker (remote_store.get_plugin_nested_info net plugin key)) ∧
   keeps_tracker (remote_store.get_record_info net) ∧
   (∀ ioc_name, keeps_tracker (remote_store.get_ioc_records net ioc_name)) ∧
   (∀ filename, keeps_tracker (remote_store.get_file_info net filename)) ∧
   keeps_tracker (remote_store.update_duplicates net) ∧
   keeps_tracker (remote_store.get_pv_relations net) ∧
   (∀ pattern max_pvs regex,
      keeps_tracker (remote_store.find_record_matches net pattern max_pvs regex))) ∧
  (keeps_tracker (cached_local_store.load_cached_whatrecord_data net) ∧
   keeps_tracker (cached_local_store.update_gateway_info net) ∧
   (∀ plugin, keeps_tracker (cached_local_store.update_plugin_info net plugin)) ∧
   (∀ plugin,
      keeps_tracker (cached_local_store.get_plugin_nested_keys net plugin)) ∧
   (∀ plugin key,
      keeps_tracker (cached_local_store.get_plugin_nested_info net plugin key)) ∧
   keeps_tracker (cached_local_store.get_pv_relations net)) ∧
  (keeps_tracker (cached_local_store.update_ioc_info net) ∧
   (∀ record_name,
      keeps_tracker (cached_local_store.get_record_info net record_name)) ∧
   (∀ ioc_name, keeps_tracker (cached_local_store.get_ioc_records net ioc_name)) ∧
   (∀ filename, keeps_tracker (cached_local_store.get_file_info net filename)) ∧
   keeps_tracker (cached_local_store.update_duplicates net)).
Proof.
  pose proof (remote_store_balanced net)
    as (R1 & R2 & R3 & R4 & R5 & R6 & R7 & R8 & R9 & R10 & R11).
  pose proof (cached_requests_balanced net) as (S1 & S2 & S3 & S4 & S5 & S6).
  pose proof (cached_scans_balanced net) as (T1 & T2 & T3 & T4 & T5).
  repeat split; intros; apply balanced_keeps_tracker; auto.
Qed.

Ltac solve_failure_store :=
  unfold failure_keeps_store;
  intros w Hinv [r Hr]; revert Hr; unfold new_events; run_cases;
  rewrite <- ?app_assoc; simpl; rewrite ?drop_app_length;
  try (rewrite <- (app_nil_r (trace w)) at 2; rewrite drop_app_length);
  intros Hr;
  first [ exact (tracker_pair_restores _ Hinv)
        | exfalso;
          repeat (apply elem_of_cons in Hr as [Hr | Hr]; [discriminate |]);
          by apply elem_of_nil in Hr ].

(** X3. A failed request corrupts nothing: whenever the request of a run
    fails, each action that talks to the server (all of [remote_store]
    but [get_record_info]; the loader and the gateway, plugin and relation
    actions of [cached_local_store]) leaves the whole store exactly as it
    found it, memo tables, tracker and snapshot included, when it starts
    from a store that satisfies the tracker invariant. *)
Theorem failed_request_keeps_store :
  (failure_keeps_store (remote_store.update_ioc_info net) ∧
   failure_keeps_store (remote_store.update_gateway_info net) ∧
   (∀ plugin, failure_keeps_store (remote_store.update_plugin_info net plugin)) ∧
   (∀ plugin,
      failure_keeps_store (remote_store.get_plugin_nested_keys net plugin)) ∧
   (∀ plugin key,
      failure_keeps_store (remote_store.get_plugin_nested_info net plugin key)) ∧
   (∀ ioc_name, failure_keeps_store (remote_store.get_ioc_records net ioc_name)) ∧
   (∀ filename, failure_keeps_store (remote_store.get_file_info net filename)) ∧
   failure_keeps_store (remote_store.update_duplicates net) ∧
   failure_keeps_store (remote_store.get_pv_relations net) ∧
   (∀ pattern max_pvs regex,
      failure_keeps_store
        (remote_store.find_record_matches net pattern max_pvs regex))) ∧
  (failure_keeps_store (cached_local_store.load_cached_whatrecord_data net) ∧
   failure_keeps_store (cached_local_store.update_gateway_info net) ∧
   (∀ plugin,
      failure_keeps_store (cached_local_store.update_plugin_info net plugin)) ∧
   (∀ plugin,
      failure_keeps_store (cached_local_store.get_plugin_nested_keys net plugin)) ∧
   (∀ plugin key,
      failure_keeps_store
        (cached_local_store.get_plugin_nested_info net plugin key)) ∧
   failure_keeps_store (cached_local_store.get_pv_relations net)).
Proof.
  unfold remote_store.update_ioc_info, remote_store.update_gateway_info,
    remote_store.update_plugin_info, remote_store.get_plugin_nested_keys,
    remote_store.get_plugin_nested_info, remote_store.get_ioc_records,
    remote_store.get_file_info, remote_store.update_duplicates,
    remote_store.get_pv_relations, remote_store.find_record_matches,
    query_pattern_of,
    cached_local_store.load_cached_whatrecord_data,
    cached_local_store.update_gateway_info, cached_local_store.update_plugin_info,
    cached_local_store.get_plugin_nested_keys,
    cached_local_store.get_plugin_nested_info, cached_local_store.get_pv_relations.
  repeat split; intros; solve_failure_store.
Qed.
End whole_runs.

Lemma entry_points_keep_tracker_witness :
  let w := committed [start_query] (demo.loaded demo.two_iocs) in
  let w' := (cached_local_store.update_duplicates demo.offline w).2 in
  queries_in_progress (store w') = 1 ∧ query_in_progress (store w') = true.
Proof.
  destruct (entry_points_keep_tracker demo.offline) as (_ & _ & _ & _ & _ & _ & H).
  apply (H (committed [start_query] (demo.loaded demo.two_iocs))).
  apply reachable_tracker_inv.
  apply reachable_commit, (reachable_commit (set_cache _)), reachable_initial.
Defined.

Lemma failed_request_keeps_store_witness :
  store (remote_store.get_file_info demo.offline "st.cmd"
           (committed [set_gateway_info (VStr "gw")] initial_world)).2 =
  store (committed [set_gateway_info (VStr "gw")] initial_world).
Proof.
  destruct (failed_request_keeps_store demo.offline)
    as ((_ & _ & _ & _ & _ & _ & H & _) & _).
  apply H.
  - apply reachable_tracker_inv, reachable_commit, reachable_initial.
  - eexists. unfold new_events. simpl. right. left.
Defined.

(** ** The snapshot: fetched once, then read only *)

Lemma cache_mutate m s :
  match m with set_cache _ => False | _ => True end →
  cache (mutate m s) = cache s.
Proof.
  destruct s, m as [| | ? ? [] | | | | | | | | | | |]; unfold mutate; simpl;
    try tauto; intros _; repeat case_decide; reflexivity.
Qed.

Lemma cache_mutate_all ms s :
  Forall (λ m, match m with set_cache _ => False | _ => True end) ms →
  cache (mutate_all ms s) = cache s.
Proof.
  intros Hms. revert s.
  induction Hms as [| m ms Hm _ IH]; intros s; [reflexivity |].
  unfold mutate_all. simpl. fold (mutate_all ms (mutate m s)).
  rewrite IH. by apply cache_mutate.
Qed.

Lemma cache_committed ms w :
  Forall (λ m, match m with set_cache _ => False | _ => True end) ms →
  cache (store (committed ms w)) = cache (store w).
Proof. apply cache_mutate_all. Qed.

Lemma requests_of_commits ms : requests_of (EvCommit <$> ms) = [].
Proof. induction ms as [| m ms IH]; [reflexivity | exact IH]. Qed.

Lemma new_events_committed ms w :
  new_events w (committed ms (dispatched w)) =
  EvDispatch "load_cached_whatrecord_data" :: (EvCommit <$> ms).
Proof.
  apply new_events_app. unfold committed, dispatched. simpl.
  by rewrite <- app_assoc.
Qed.

Lemma new_events_same w : new_events w w = [].
Proof. apply new_events_app. by rewrite app_nil_r. Qed.

Section snapshot_use.
Context (net : list Event → Server).
Context (wcmatch : string → string → bool).
Context (RegExp : string → option (string → bool)).
Import cached_local_store.

(** X4. The first load that the server answers stores the snapshot, with
    one request; a load after it hands out the stored snapshot and
    touches neither the server nor the store nor the tracker. *)
Theorem snapshot_fetched_once (w : World) (c : Snapshot) :
  cache (store w) = None →
  cache_json_gz (net (trace w ++ [EvCommit start_query])) = Some c →
  let first := load_cached_whatrecord_data net w in
  first.1 = Return c ∧
  cache (store first.2) = Some c ∧
  requests_of (new_events w first.2) =
    [{| url := "/cache.json.gz"; params := [] |}] ∧
  load_cached_whatrecord_data net first.2 = (Return c, first.2).
Proof.
  intros Hnone Hfetch. cbv zeta. unfold load_cached_whatrecord_data.
  unfold_monad. simpl. rewrite Hnone. simpl. rewrite Hfetch. simpl.
  assert (cache (mutate end_query (mutate (set_cache c)
                   (mutate start_query (store w)))) = Some c) as Hc.
  { rewrite cache_mutate by exact I. by destruct (mutate start_query (store w)). }
  split; [reflexivity |]. split; [exact Hc |]. split.
  - unfold new_events. simpl. rewrite <- !app_assoc. simpl.
    by rewrite drop_app_length.
  - by rewrite Hc.
Qed.

Ltac solve_keeps_cache :=
  unfold keeps_cache; intros w c Hc; run_cases;
  rewrite ?cache_mutate by exact I; first [ exact Hc | congruence ].

(** X5. Once loaded, the snapshot is never replaced or dropped: every
    action of [cached_local_store] leaves a loaded snapshot in place, on
    every path. *)
Theorem loaded_snapshot_stays :
  keeps_cache (load_cached_whatrecord_data net) ∧
  keeps_cache (update_ioc_info net) ∧
  keeps_cache (update_gateway_info net) ∧
  (∀ plugin, keeps_cache (update_plugin_info net plugin)) ∧
  (∀ plugin, keeps_cache (get_plugin_nested_keys net plugin)) ∧
  (∀ plugin key, keeps_cache (get_plugin_nested_info net plugin key)) ∧
  (∀ record_name, keeps_cache (get_record_info net record_name)) ∧
  (∀ ioc_name, keeps_cache (get_ioc_records net ioc_name)) ∧
  (∀ filename, keeps_cache (get_file_info net filename)) ∧
  keeps_cache (update_duplicates net) ∧
  keeps_cache (get_pv_relations net) ∧
  (∀ pattern max_pvs regex,
     keeps_cache (find_record_matches net wcmatch RegExp pattern max_pvs regex)).
Proof.
  repeat apply conj.
  - unfold load_cached_whatrecord_data. solve_keeps_cache.
  - intros w c Hc. pose proof (load_cached net w c Hc) as Hl.
    destruct (ioc_info (store w)) as [| v vs] eqn:Hm.
    + rewrite (update_ioc_info_miss net w c _ Hm Hl).
      destruct (iocs c); [| exact Hc].
      simpl snd; rewrite cache_committed; [exact Hc |]. by apply Forall_singleton.
    + rewrite update_ioc_info_hit by (by rewrite Hm). exact Hc.
  - unfold update_gateway_info. solve_keeps_cache.
  - intros plugin. unfold update_plugin_info. solve_keeps_cache.
  - intros plugin. unfold get_plugin_nested_keys. solve_keeps_cache.
  - intros plugin key. unfold get_plugin_nested_info. solve_keeps_cache.
  - intros record_name w c Hc. pose proof (load_cached net w c Hc) as Hl.
    destruct (record_info (store w) !! record_name) as [i |] eqn:Hm.
    + by rewrite (get_record_info_hit net record_name w i Hm).
    + rewrite (get_record_info_miss net record_name w c _ Hm Hl).
      destruct (iocs c); [| exact Hc].
      simpl snd; rewrite cache_committed; [exact Hc |].
      apply Forall_fmap, Forall_forall. by intros h _.
  - intros ioc_name w c Hc. pose proof (load_cached net w c Hc) as Hl.
    rewrite (get_ioc_records_run net ioc_name w c _ Hl).
    destruct (iocs c ≫= _); [| exact Hc].
    cbv zeta. simpl snd; rewrite cache_committed; [exact Hc |]. by apply Forall_singleton.
  - intros filename. unfold get_file_info, load_cached_whatrecord_data.
    solve_keeps_cache.
  - intros w c Hc. pose proof (load_cached net w c Hc) as Hl.
    destruct (decide (duplicates (store w) = ∅)) as [Hm | Hm].
    + rewrite (update_duplicates_miss net w c _ Hm Hl).
      destruct (iocs c); [| exact Hc].
      simpl snd; rewrite cache_committed; [exact Hc |]. by apply Forall_singleton.
    + rewrite update_duplicates_hit; [exact Hc |].
      apply map_size_non_empty_iff in Hm. lia.
  - unfold get_pv_relations. solve_keeps_cache.
  - intros pattern max_pvs regex w c Hc.
    pose proof (load_cached net w c Hc) as Hl.
    destruct pattern as [pattern |]; [| exact Hc].
    destruct (pv_cache regex (store w) !! pattern) as [l0 |] eqn:Hm.
    + by rewrite (find_record_matches_hit net wcmatch RegExp pattern max_pvs
                    regex w l0 Hm).
    + rewrite (find_record_matches_miss net wcmatch RegExp pattern max_pvs
                 regex w c _ Hm Hl).
      destruct (compile_matcher _ _ _ _); [| exact Hc].
      destruct (iocs c); [| exact Hc].
      cbv zeta. simpl snd; rewrite cache_committed; [exact Hc |].
      apply Forall_cons. split; [exact I |]. by apply Forall_singleton.
Qed.

Lemma local_run {A} (a : Action A) w r ms :
  a w = (r, committed ms (dispatched w)) →
  Forall (λ m, ¬ tracker_mutation m) ms →
  requests_of (new_events w (a w).2) = [] ∧
  Forall (λ m, ¬ tracker_mutation m) (commits_of (new_events w (a w).2)).
Proof.
  intros -> Hms. simpl. rewrite new_events_committed. split.
  - apply requests_of_commits.
  - change (commits_of (EvDispatch "load_cached_whatrecord_data" :: (EvCommit <$> ms)))
      with (commits_of (EvCommit <$> ms)).
    by rewrite commits_of_commits.
Qed.

Lemma local_raise {A} (a : Action A) w r :
  a w = (r, dispatched w) →
  requests_of (new_events w (a w).2) = [] ∧
  Forall (λ m, ¬ tracker_mutation m) (commits_of (new_events w (a w).2)).
Proof.
  intros Ha. apply (local_run a w r []); [| constructor].
  by rewrite committed_nil.
Qed.

Lemma local_same {A} (a : Action A) w r :
  a w = (r, w) →
  requests_of (new_events w (a w).2) = [] ∧
  Forall (λ m, ¬ tracker_mutation m) (commits_of (new_events w (a w).2)).
Proof. intros ->. simpl. rewrite new_events_same. by split. Qed.

Lemma not_tracker_one m :
  ¬ tracker_mutation m → Forall (λ m, ¬ tracker_mutation m) [m].
Proof. intros Hm. by apply Forall_singleton. Qed.

(** X6. With the snapshot loaded, the queries that scan it work offline:
    they send no request, whatever they are asked, and all but
    [find_record_matches] commit no tracker mutation, so the busy flag
    never shows for them. *)
Theorem loaded_scans_are_local :
  local_when_loaded (update_ioc_info net) ∧
  (∀ record_name, local_when_loaded (get_record_info net record_name)) ∧
  (∀ ioc_name, local_when_loaded (get_ioc_records net ioc_name)) ∧
  (∀ filename, local_when_loaded (get_file_info net filename)) ∧
  local_when_loaded (update_duplicates net) ∧
  (∀ pattern max_pvs regex,
     offline_when_loaded
       (find_record_matches net wcmatch RegExp pattern max_pvs regex)).
Proof.
  repeat apply conj.
  - intros w c Hc. pose proof (load_cached net w c Hc) as Hl.
    destruct (ioc_info (store w)) as [| v vs] eqn:Hm.
    + pose proof (update_ioc_info_miss net w c _ Hm Hl) as Hrun.
      destruct (iocs c); [| by eapply local_raise].
      eapply local_run; [exact Hrun |].
      apply not_tracker_one. intros [? | ?]; discriminate.
    + eapply local_same. apply update_ioc_info_hit. by rewrite Hm.
  - intros record_name w c Hc. pose proof (load_cached net w c Hc) as Hl.
    destruct (record_info (store w) !! record_name) as [i |] eqn:Hm.
    + eapply local_same. by apply get_record_info_hit.
    + pose proof (get_record_info_miss net record_name w c _ Hm Hl) as Hrun.
      destruct (iocs c); [| by eapply local_raise].
      eapply local_run; [exact Hrun |].
      apply Forall_fmap, Forall_forall. intros h _ [? | ?]; discriminate.
  - intros ioc_name w c Hc. pose proof (load_cached net w c Hc) as Hl.
    pose proof (get_ioc_records_run net ioc_name w c _ Hl) as Hrun.
    destruct (iocs c ≫= _); [| by eapply local_raise].
    eapply local_run; [exact Hrun |].
    apply not_tracker_one. intros [? | ?]; discriminate.
  - intros filename w c Hc. pose proof (load_cached net w c Hc) as Hl.
    destruct (file_info (store w) !! filename) as [i |] eqn:Hm.
    + eapply local_same. by apply get_file_info_hit.
    + destruct (get_file_info_miss net filename w c _ Hm Hl)
        as [[_ Hrun] | [_ (ms & Hrun & Hms)]]; [by eapply local_raise |].
      by eapply local_run.
  - intros w c Hc. pose proof (load_cached net w c Hc) as Hl.
    destruct (decide (duplicates (store w) = ∅)) as [Hm | Hm].
    + pose proof (update_duplicates_miss net w c _ Hm Hl) as Hrun.
      destruct (iocs c); [| by eapply local_raise].
      eapply local_run; [exact Hrun |].
      apply not_tracker_one. intros [? | ?]; discriminate.
    + eapply local_same. apply update_duplicates_hit.
      apply map_size_non_empty_iff in Hm. lia.
  - intros pattern max_pvs regex w c Hc.
    pose proof (load_cached net w c Hc) as Hl.
    destruct pattern as [pattern |];
      [| by apply (local_same (find_record_matches net wcmatch RegExp None
                                 max_pvs regex) w (Return None))].
    destruct (pv_cache regex (store w) !! pattern) as [l0 |] eqn:Hm.
    + eapply local_same. by apply find_record_matches_hit.
    + pose proof (find_record_matches_miss net wcmatch RegExp pattern max_pvs
                    regex w c _ Hm Hl) as Hrun.
      destruct (compile_matcher _ _ _ _); [| by eapply local_raise].
      destruct (iocs c); [| by eapply local_raise].
      rewrite Hrun. simpl. rewrite new_events_committed.
      apply requests_of_commits.
Qed.
End snapshot_use.

Lemma snapshot_fetched_once_witness :
  let first :=
    cached_local_store.load_cached_whatrecord_data (demo.online demo.two_iocs)
      initial_world in
  first.1 = Return (demo.snapshot_of demo.two_iocs) ∧
  cached_local_store.load_cached_whatrecord_data demo.offline first.2 =
  (Return (demo.snapshot_of demo.two_iocs), first.2).
Proof.
  destruct (snapshot_fetched_once (demo.online demo.two_iocs) initial_world
              (demo.snapshot_of demo.two_iocs) eq_refl eq_refl)
    as (Hfirst & _ & _ & _).
  split; [exact Hfirst | reflexivity].
Defined.

Lemma loaded_snapshot_stays_witness :
  cache (store (cached_local_store.update_duplicates demo.offline
                  (demo.loaded demo.two_iocs)).2) =
  Some (demo.snapshot_of demo.two_iocs).
Proof.
  destruct (loaded_snapshot_stays demo.offline demo.wcmatch demo.RegExp)
    as (_ & _ & _ & _ & _ & _ & _ & _ & _ & H & _).
  by apply H.
Defined.

Lemma loaded_scans_are_local_witness :
  requests_of
    (new_events (demo.loaded demo.two_iocs)
       (cached_local_store.get_record_info demo.offline "pv2"
          (demo.loaded demo.two_iocs)).2) = [].
Proof.
  destruct (loaded_scans_are_local demo.offline demo.wcmatch demo.RegExp)
    as (_ & H & _).
  by apply (H "pv2" (demo.loaded demo.two_iocs) (demo.snapshot_of demo.two_iocs)).
Defined.

(** ** What the snapshot queries remember *)

Section load_frame.
Context (net : list Event → Server).

(** The three stores a load can leave. *)
Lemma load_store_cases w c w1 :
  load net w = (Return c, w1) →
  store w1 = store w ∨
  store w1 = mutate end_query (mutate (set_cache c) (mutate start_query (store w))) ∨
  store w1 = mutate end_query (mutate start_query (store w)).
Proof.
  intros Hl. destruct (cache (store w)) as [c0 |] eqn:Hc.
  - rewrite (load_cached net w c0 Hc) in Hl. simplify_eq. by left.
  - rewrite (load_fetch net w Hc) in Hl.
    destruct (cache_json_gz _); simplify_eq; [right; by left | right; by right].
Qed.

(** A snapshot that has a top-level key is in the store after the load. *)
Lemma load_stores w c w1 :
  load net w = (Return c, w1) →
  is_Some (iocs c) ∨ is_Some (files c) →
  cache (store w1) = Some c.
Proof.
  intros Hl Hkey. destruct (cache (store w)) as [c0 |] eqn:Hc.
  - rewrite (load_cached net w c0 Hc) in Hl. by simplify_eq.
  - rewrite (load_fetch net w Hc) in Hl.
    destruct (cache_json_gz _); simplify_eq; simpl.
    + rewrite cache_mutate by exact I. by destruct (mutate start_query (store w)).
    + destruct Hkey as [[? ?] | [? ?]]; discriminate.
Qed.

(** Loading changes no table of the store. *)
Lemma load_tables w c w1 :
  load net w = (Return c, w1) →
  ioc_info (store w1) = ioc_info (store w) ∧
  duplicates (store w1) = duplicates (store w) ∧
  file_info (store w1) = file_info (store w) ∧
  ioc_to_records (store w1) = ioc_to_records (store w) ∧
  glob_to_pvs (store w1) = glob_to_pvs (store w) ∧
  regex_to_pvs (store w1) = regex_to_pvs (store w).
Proof.
  intros Hl. destruct (load_store_cases w c w1 Hl) as [-> | [-> | ->]];
    [done | |]; destruct (store w); unfold mutate; simpl;
    repeat case_decide; done.
Qed.
End load_frame.

Lemma set_ioc_records_twice ioc_name records s :
  mutate (set_ioc_records ioc_name records)
    (mutate (set_ioc_records ioc_name records) s) =
  mutate (set_ioc_records ioc_name records) s.
Proof. destruct s. unfold mutate. simpl. by rewrite insert_insert_eq. Qed.

Section memos.
Context (net : list Event → Server).
Context (wcmatch : string → string → bool).
Context (RegExp : string → option (string → bool)).
Import cached_local_store.

(** X7. The first [update_ioc_info] of the snapshot store returns
    [undefined] and commits the metadata of every IOC of the snapshot,
    one per IOC and in the snapshot's order. When the snapshot has an IOC,
    a later call returns that list from the store and does nothing else;
    when it has none, the list stays empty, so the store never answers
    by itself. *)
Theorem snapshot_ioc_listing (w w1 : World) (c : Snapshot) (l : obj IocEntry) :
  ioc_info (store w) = [] →
  load net w = (Return c, w1) →
  iocs c = Some l →
  let first := update_ioc_info net w in
  first = (Return None, committed [set_ioc_info (md <$> obj_values l)] w1) ∧
  ioc_info (store first.2) = md <$> obj_values l ∧
  length (ioc_info (store first.2)) = length l ∧
  (l ≠ [] →
   update_ioc_info net first.2 = (Return (Some (md <$> obj_values l)), first.2)) ∧
  (l = [] → ioc_info (store first.2) = []).
Proof.
  intros Hm Hl Hc. cbv zeta.
  rewrite (update_ioc_info_miss net w c w1 Hm Hl), Hc. simpl snd.
  assert (ioc_info (store (committed [set_ioc_info (md <$> obj_values l)] w1))
          = md <$> obj_values l) as Hinfo
    by (unfold committed, mutate_all; simpl; by destruct (store w1)).
  split; [reflexivity |]. split; [exact Hinfo |]. split; [| split].
  - rewrite Hinfo. unfold obj_values. by rewrite !length_fmap.
  - intros Hne. rewrite update_ioc_info_hit; rewrite Hinfo; [reflexivity |].
    unfold obj_values. destruct l; [done | discriminate].
  - intros ->. by rewrite Hinfo.
Qed.

(** X8. [get_ioc_records] of the snapshot store has no memo: each call
    reads the snapshot again and commits again. It returns and commits
    the records of the IOC's traditional database followed by its PVA
    groups, as many as the two databases have keys; calling it again
    returns the same list and leaves the store as the first call left
    it. *)
Theorem snapshot_ioc_records (ioc_name : string) (w w1 : World) (c : Snapshot)
    (l : obj IocEntry) (e : IocEntry) :
  load net w = (Return c, w1) →
  iocs c = Some l →
  obj_get l ioc_name = Some e →
  let records :=
    (v3_record <$> obj_values (database (shell_state (ioc e)))) ++
    (v4_record <$> obj_values (pva_database (shell_state (ioc e)))) in
  let first := get_ioc_records net ioc_name w in
  let second := get_ioc_records net ioc_name first.2 in
  first.1 = Return records ∧
  length records =
    (length (database (shell_state (ioc e))) +
     length (pva_database (shell_state (ioc e))))%nat ∧
  ioc_to_records (store first.2) !! ioc_name = Some records ∧
  second.1 = Return records ∧
  store second.2 = store first.2 ∧
  commits_of (new_events first.2 second.2) = [set_ioc_records ioc_name records].
Proof.
  intros Hl Hc He. cbv zeta.
  pose proof (get_ioc_records_run net ioc_name w c w1 Hl) as Hrun.
  rewrite Hc in Hrun. simpl in Hrun. rewrite He in Hrun. cbv zeta in Hrun.
  rewrite Hrun. simpl fst. simpl snd.
  set (records := (v3_record <$> _) ++ (v4_record <$> _)).
  set (w2 := committed [set_ioc_records ioc_name records] w1).
  assert (cache (store w2) = Some c) as Hcache.
  { unfold w2. rewrite cache_committed by (by apply Forall_singleton).
    apply (load_stores net w c w1 Hl). left. by rewrite Hc. }
  pose proof (get_ioc_records_run net ioc_name w2 c _
                (load_cached net w2 c Hcache)) as Hrun2.
  rewrite Hc in Hrun2. simpl in Hrun2. rewrite He in Hrun2. cbv zeta in Hrun2.
  fold records in Hrun2. rewrite Hrun2. simpl fst. simpl snd.
  split; [reflexivity |]. split; [| split; [| split; [reflexivity | split]]].
  - unfold records, obj_values. by rewrite length_app, !length_fmap.
  - unfold w2, committed, mutate_all. simpl. destruct (store w1).
    apply lookup_insert_eq.
  - unfold w2, committed, mutate_all, dispatched. simpl.
    apply set_ioc_records_twice.
  - rewrite new_events_committed.
    change (commits_of (EvDispatch "load_cached_whatrecord_data"
                          :: (EvCommit <$> [set_ioc_records ioc_name records])))
      with (commits_of (EvCommit <$> [set_ioc_records ioc_name records])).
    apply commits_of_commits.
Qed.






(** X12. A regular expression that does not compile aborts the search
    after the load: the search returns [undefined] and commits nothing,
    not even [end_query], and the memo has no entry for the pattern
    afterwards, so the same search again compiles again. In glob mode
    every pattern compiles. *)
Theorem malformed_regex_commits_nothing
    (pattern : string) (max_pvs : Value) (w w1 : World) (c : Snapshot) :
  regex_to_pvs (store w) !! pattern = None →
  load net w = (Return c, w1) →
  RegExp pattern = None →
  find_record_matches net wcmatch RegExp (Some pattern) max_pvs true w
    = (Return None, w1) ∧
  regex_to_pvs (store w1) !! pattern = None ∧
  glob_to_pvs (store w1) = glob_to_pvs (store w) ∧
  (∀ glob, compile_matcher wcmatch RegExp glob false = Some (wcmatch glob)).
Proof.
  intros Hm Hl Hre.
  pose proof (find_record_matches_miss net wcmatch RegExp pattern max_pvs true
                w c w1 Hm Hl) as Hrun.
  unfold compile_matcher in Hrun. rewrite Hre in Hrun.
  destruct (load_tables net w c w1 Hl) as (_ & _ & _ & _ & Hglob & Hregex).
  split; [exact Hrun |]. split; [by rewrite Hregex |].
  split; [exact Hglob | reflexivity].
Qed.

End memos.

Lemma snapshot_ioc_listing_witness :
  cached_local_store.update_ioc_info demo.offline
    (cached_local_store.update_ioc_info demo.offline
       (demo.loaded demo.two_iocs)).2 =
  (Return (Some [VObj [("name", VStr "A")]; VObj [("name", VStr "B")]]),
   (cached_local_store.update_ioc_info demo.offline
      (demo.loaded demo.two_iocs)).2).
Proof.
  destruct (snapshot_ioc_listing demo.offline (demo.loaded demo.two_iocs)
              (dispatched (demo.loaded demo.two_iocs))
              (demo.snapshot_of demo.two_iocs) demo.two_iocs
              eq_refl eq_refl eq_refl) as (_ & _ & _ & H & _).
  by apply H.
Defined.

Lemma snapshot_ioc_records_witness :
  (cached_local_store.get_ioc_records demo.offline "A"
     (demo.loaded demo.two_iocs)).1 =
  Return [v3_record demo.ai_record; v3_record demo.bo_record].
Proof.
  exact (proj1 (snapshot_ioc_records demo.offline "A" (demo.loaded demo.two_iocs)
                  (dispatched (demo.loaded demo.two_iocs))
                  (demo.snapshot_of demo.two_iocs) demo.two_iocs
                  (demo.ioc_of "A" [("pv1", demo.ai_record); ("pv2", demo.bo_record)] [])
                  eq_refl eq_refl eq_refl)).
Defined.




Lemma malformed_regex_commits_nothing_witness :
  cached_local_store.find_record_matches demo.offline demo.wcmatch demo.RegExp
    (Some "pv[") VNull true (demo.loaded demo.two_iocs) =
  (Return None, dispatched (demo.loaded demo.two_iocs)).
Proof.
  exact (proj1 (malformed_regex_commits_nothing demo.offline demo.wcmatch
                  demo.RegExp "pv[" VNull (demo.loaded demo.two_iocs)
                  (dispatched (demo.loaded demo.two_iocs))
                  (demo.snapshot_of demo.two_iocs) eq_refl eq_refl eq_refl)).
Defined.


(** ** The file tables of the IOC page *)

Lemma String_length_app (a b : string) :
  String.length (a +:+ b) = (String.length a + String.length b)%nat.
Proof. induction a as [| c a IH]; simpl; [reflexivity | by rewrite IH]. Qed.

Lemma substring_all (s : string) : String.substring 0 (String.length s) s = s.
Proof. induction s as [| c s IH]; simpl; [reflexivity | by rewrite IH]. Qed.

Lemma substring_none (n : nat) (s : string) : String.substring n 0 s = "".
Proof.
  revert n. induction s as [| c s IH]; intros [| n]; simpl; try reflexivity.
  apply IH.
Qed.

Lemma substring_app_r (a b : string) :
  String.substring (String.length a) (String.length b) (a +:+ b) = b.
Proof. induction a as [| c a IH]; simpl; [apply substring_all | exact IH]. Qed.

Lemma lastIndexOf_from_absent s c i found :
  c ∉ list_ascii_of_string s → lastIndexOf_from s c i found = found.
Proof.
  revert i found. induction s as [| a s IH]; intros i found Hc; simpl;
    [reflexivity |].
  simpl in Hc. apply not_elem_of_cons in Hc as [Hne Hc].
  rewrite IH by exact Hc. by case_decide; [subst |].
Qed.

Lemma lastIndexOf_from_app stem s c i found :
  lastIndexOf_from (stem +:+ s) c i found =
  lastIndexOf_from s c (i + Z.of_nat (String.length stem))
    (lastIndexOf_from stem c i found).
Proof.
  revert i found. induction stem as [| a stem IH]; intros i found; simpl.
  - f_equal. lia.
  - rewrite IH. f_equal. lia.
Qed.

Lemma lastIndexOf_last_dot stem ext :
  "."%char ∉ list_ascii_of_string ext →
  String_lastIndexOf (stem +:+ String "." ext) "." = Z.of_nat (String.length stem).
Proof.
  intros Hext. unfold String_lastIndexOf. rewrite lastIndexOf_from_app. simpl.
  rewrite lastIndexOf_from_absent by exact Hext.
  repeat case_decide; first [lia | done].
Qed.

Lemma String_substring_in_range s a b :
  0 ≤ a ≤ b → b ≤ Z.of_nat (String.length s) →
  String_substring s a b = String.substring (Z.to_nat a) (Z.to_nat (b - a)) s.
Proof. intros Ha Hb. unfold String_substring. cbv zeta. f_equal; lia. Qed.

Lemma String_app_assoc (a b c : string) : (a +:+ b) +:+ c = a +:+ (b +:+ c).
Proof.
  induction a as [| x a IH]; [reflexivity |].
  change (String x ((a +:+ b) +:+ c) = String x (a +:+ (b +:+ c))).
  by rewrite IH.
Qed.

Lemma String_substring_tail stem ext :
  String_substring (stem +:+ String "." ext)
    (Z.of_nat (String.length stem) + 1)
    (Z.of_nat (String.length (stem +:+ String "." ext))) = ext.
Proof.
  rewrite String_substring_in_range
    by (rewrite String_length_app; simpl String.length; lia).
  change (stem +:+ String "." ext) with (stem +:+ ("." +:+ ext)).
  rewrite <- String_app_assoc.
  replace (Z.to_nat (Z.of_nat (String.length stem) + 1))
    with (String.length (stem +:+ "."))
    by (rewrite String_length_app; simpl String.length; lia).
  replace (Z.to_nat _) with (String.length ext)
    by (rewrite !String_length_app; simpl String.length; lia).
  apply substring_app_r.
Qed.

Lemma get_extension_after_dot stem ext :
  "."%char ∉ list_ascii_of_string ext → ext ≠ "" →
  get_extension (stem +:+ String "." ext) = ext.
Proof.
  intros Hdot Hne. unfold get_extension.
  rewrite lastIndexOf_last_dot, String_substring_tail by exact Hdot.
  by case_decide.
Qed.

Lemma get_extension_no_dot filename :
  "."%char ∉ list_ascii_of_string filename → get_extension filename = filename.
Proof.
  intros Hdot. unfold get_extension, String_lastIndexOf.
  rewrite lastIndexOf_from_absent by exact Hdot.
  rewrite String_substring_in_range by lia.
  replace (Z.to_nat (-1 + 1)) with 0%nat by lia.
  replace (Z.to_nat _) with (String.length filename) by lia.
  rewrite substring_all. by case_decide.
Qed.

(** X14. [get_extension] gives what follows the last dot of the file
    name, and the whole name when there is nothing to give: a name
    without a dot, or one that ends in a dot, comes back as it is. The
    result is empty for the empty name only. *)
Theorem extension_follows_the_last_dot :
  (∀ stem ext,
     "."%char ∉ list_ascii_of_string ext → ext ≠ "" →
     get_extension (stem +:+ String "." ext) = ext) ∧
  (∀ filename,
     "."%char ∉ list_ascii_of_string filename →
     get_extension filename = filename) ∧
  (∀ stem, get_extension (stem +:+ ".") = stem +:+ ".") ∧
  (∀ filename, get_extension filename = "" → filename = "").
Proof.
  repeat apply conj.
  - apply get_extension_after_dot.
  - apply get_extension_no_dot.
  - intros stem. unfold get_extension.
    rewrite (lastIndexOf_last_dot stem "") by (simpl; apply not_elem_of_nil).
    rewrite String_substring_tail. by case_decide.
  - intros filename. unfold get_extension. by case_decide.
Qed.

Lemma extension_follows_the_last_dot_witness :
  get_extension "a.b.DB" = "DB" ∧ get_extension "Makefile" = "Makefile".
Proof.
  destruct extension_follows_the_last_dot as (Hext & Hnone & _).
  split.
  - apply (Hext "a.b" "DB"); [| discriminate].
    simpl. intros H. repeat (apply elem_of_cons in H as [H | H]; [discriminate |]).
    by apply elem_of_nil in H.
  - apply Hnone. simpl. intros H.
    repeat (apply elem_of_cons in H as [H | H]; [discriminate |]).
    by apply elem_of_nil in H.
Defined.

Lemma Array_indexOf_elem_of l x : Array_indexOf l x >= 0 ↔ x ∈ l.
Proof.
  induction l as [| y l IH]; simpl.
  - split; [lia | by intros ?%elem_of_nil].
  - rewrite elem_of_cons. case_decide as Hy; [subst; split; [by left | lia] |].
    case_decide as Hi; split.
    + lia.
    + intros [-> | Hx]; [done |]. apply IH in Hx. lia.
    + intros _. right. apply IH. lia.
    + lia.
Qed.

Lemma Array_indexOf_bounds l x : -1 ≤ Array_indexOf l x < Z.of_nat (length l).
Proof.
  induction l as [| y l IH]; simpl; [lia |].
  repeat case_decide; lia.
Qed.

Lemma toLowerCase_char_dot c : toLowerCase_char c = "."%char ↔ c = "."%char.
Proof.
  destruct c as [[] [] [] [] [] [] [] []]; vm_compute; split; congruence.
Qed.

Lemma toLowerCase_char_idemp c :
  toLowerCase_char (toLowerCase_char c) = toLowerCase_char c.
Proof. by destruct c as [[] [] [] [] [] [] [] []]. Qed.

Lemma String_toLowerCase_idemp s :
  String_toLowerCase (String_toLowerCase s) = String_toLowerCase s.
Proof.
  induction s as [| c s IH]; simpl; [reflexivity |].
  by rewrite toLowerCase_char_idemp, IH.
Qed.

Lemma String_toLowerCase_length s :
  String.length (String_toLowerCase s) = String.length s.
Proof. induction s as [| c s IH]; simpl; [reflexivity | by rewrite IH]. Qed.

Lemma String_toLowerCase_empty s : String_toLowerCase s = "" ↔ s = "".
Proof. by destruct s. Qed.

Lemma lastIndexOf_from_lower s i found :
  lastIndexOf_from (String_toLowerCase s) "." i found =
  lastIndexOf_from s "." i found.
Proof.
  revert i found. induction s as [| c s IH]; intros i found; simpl;
    [reflexivity |].
  rewrite IH. f_equal.
  pose proof (toLowerCase_char_dot c) as Hc.
  repeat case_decide; try reflexivity; tauto.
Qed.

Lemma substring_lower n m s :
  String.substring n m (String_toLowerCase s) =
  String_toLowerCase (String.substring n m s).
Proof.
  revert n m. induction s as [| c s IH]; intros [| n] [| m]; simpl;
    try reflexivity.
  - by rewrite IH.
  - apply IH.
  - apply IH.
Qed.

Lemma get_extension_lower filename :
  get_extension (String_toLowerCase filename) =
  String_toLowerCase (get_extension filename).
Proof.
  unfold get_extension, String_lastIndexOf, String_substring.
  rewrite lastIndexOf_from_lower, String_toLowerCase_length, substring_lower.
  cbv zeta.
  set (extension := String.substring _ _ filename).
  destruct (decide (extension = "")) as [-> | Hne]; [reflexivity |].
  case_decide as Hlow; [| reflexivity].
  destruct (Hne (proj1 (String_toLowerCase_empty _) Hlow)).
Qed.

(** X15. [is_startup_file] looks at the extension only, without regard
    to the case of the letters A to Z: a file is a startup file exactly
    when its lower-cased extension is [cmd], [db] or [dbd]; two names that
    differ in case only are sorted alike; a name [stem.ext] is sorted as
    the bare name [ext] is, so that a file called [db] is a startup file
    as well. *)
Theorem startup_file_by_extension :
  (∀ filename,
     is_startup_file filename = true ↔
     String_toLowerCase (get_extension filename) ∈ ["cmd"; "db"; "dbd"]) ∧
  (∀ f g,
     String_toLowerCase f = String_toLowerCase g →
     is_startup_file f = is_startup_file g) ∧
  (∀ stem ext,
     "."%char ∉ list_ascii_of_string ext → ext ≠ "" →
     is_startup_file (stem +:+ String "." ext) = is_startup_file ext).
Proof.
  assert (∀ filename,
            is_startup_file (String_toLowerCase filename) = is_startup_file filename)
    as Hlower.
  { intros filename. unfold is_startup_file.
    by rewrite get_extension_lower, String_toLowerCase_idemp. }
  repeat apply conj.
  - intros filename. unfold is_startup_file.
    rewrite bool_decide_eq_true. apply Array_indexOf_elem_of.
  - intros f g Hfg. by rewrite <- (Hlower f), <- (Hlower g), Hfg.
  - intros stem ext Hdot Hne. unfold is_startup_file.
    by rewrite (get_extension_after_dot stem ext Hdot Hne),
      (get_extension_no_dot ext Hdot).
Qed.

Lemma startup_file_by_extension_witness :
  is_startup_file "iocBoot/ioc1/ST.CMD" = is_startup_file "CMD" ∧
  is_startup_file "St.Cmd" = is_startup_file "st.cmd".
Proof.
  destruct startup_file_by_extension as (_ & Hcase & Hext).
  split.
  - apply (Hext "iocBoot/ioc1/ST" "CMD"); [| discriminate].
    simpl. intros H. repeat (apply elem_of_cons in H as [H | H]; [discriminate |]).
    by apply elem_of_nil in H.
  - by apply Hcase.
Defined.

Lemma filter_split_Permutation {A} (p : A → bool) (l : list A) :
  List.filter p l ++ List.filter (λ x, negb (p x)) l ≡ₚ l.
Proof.
  induction l as [| x l IH]; simpl; [reflexivity |].
  destruct (p x); simpl.
  - by rewrite IH.
  - by rewrite <- Permutation_middle, IH.
Qed.

Lemma filter_sublist {A} (p : A → bool) (l : list A) : sublist (List.filter p l) l.
Proof.
  induction l as [| x l IH]; simpl; [constructor |].
  destruct (p x); by constructor.
Qed.

Lemma elem_of_List_filter {A} (p : A → bool) (l : list A) x :
  x ∈ List.filter p l ↔ x ∈ l ∧ p x = true.
Proof. rewrite !list_elem_of_In. apply filter_In. Qed.

(** X16. The two tables of the IOC page split the loaded files: every
    loaded file is in exactly one of [startup_file_list] and
    [source_file_list], startup files being those that [is_startup_file]
    accepts; each table lists its files in the order of [loaded_files]
    and as often as they are there; without an [ioc_info] both tables are
    empty. *)
Theorem loaded_files_split_in_two_tables (ioc_info : option IocInfo) :
  startup_file_list ioc_info ++ source_file_list ioc_info ≡ₚ all_files ioc_info ∧
  sublist (startup_file_list ioc_info) (all_files ioc_info) ∧
  sublist (source_file_list ioc_info) (all_files ioc_info) ∧
  (∀ f, f ∈ startup_file_list ioc_info ↔
        f ∈ all_files ioc_info ∧ is_startup_file (file_name f) = true) ∧
  (∀ f, f ∈ source_file_list ioc_info ↔
        f ∈ all_files ioc_info ∧ is_startup_file (file_name f) = false) ∧
  (∀ i, ioc_info = Some i →
        file_name <$> all_files ioc_info = obj_keys (loaded_files i) ∧
        file_hash <$> all_files ioc_info = obj_values (loaded_files i)) ∧
  (ioc_info = None →
   startup_file_list ioc_info = [] ∧ source_file_list ioc_info = []).
Proof.
  unfold startup_file_list, source_file_list. repeat apply conj.
  - apply filter_split_Permutation.
  - apply filter_sublist.
  - apply filter_sublist.
  - intros f.
    apply (elem_of_List_filter (λ f, is_startup_file (file_name f))).
  - intros f.
    rewrite (elem_of_List_filter (λ f, negb (is_startup_file (file_name f)))).
    by rewrite negb_true_iff.
  - intros i ->. unfold all_files, obj_keys, obj_values.
    rewrite <- !list_fmap_compose. split; reflexivity.
  - by intros ->.
Qed.

Lemma loaded_files_split_in_two_tables_witness :
  let page := Some {| loaded_files := [("st.cmd", VStr "1"); ("main.c", VStr "2");
                                       ("ioc.DB", VStr "3")] |} in
  file_name <$> all_files page = ["st.cmd"; "main.c"; "ioc.DB"] ∧
  file_name <$> startup_file_list page = ["st.cmd"; "ioc.DB"] ∧
  file_name <$> source_file_list page = ["main.c"].
Proof.
  cbv zeta.
  destruct (loaded_files_split_in_two_tables
              (Some {| loaded_files := [("st.cmd", VStr "1"); ("main.c", VStr "2");
                                        ("ioc.DB", VStr "3")] |}))
    as (_ & _ & _ & _ & _ & Hall & _).
  destruct (Hall _ eq_refl) as [Hnames _].
  split; [exact Hnames |]. split; reflexivity.
Defined.

(** ** Tables and tracker are independent *)



(** ** Answered requests of [remote_store] *)

Section answered.
Context (net : list Event → Server).
Import remote_store.



(** X18. Of the actions of [remote_store] only [update_ioc_info] and
    [find_record_matches] ever answer from the store. The other
    requesting actions send their one request on every call, whatever the
    store already holds. *)
Theorem remote_requests_every_time :
  always_requests (update_gateway_info net)
    {| url := "/api/gateway/info"; params := [] |} ∧
  (∀ plugin,
     always_requests (update_plugin_info net plugin)
       {| url := "/api/plugin/info"; params := [("plugin", VStr plugin)] |}) ∧
  (∀ plugin,
     always_requests (get_plugin_nested_keys net plugin)
       {| url := "/api/plugin/nested/keys"; params := [("plugin", VStr plugin)] |}) ∧
  (∀ plugin key,
     always_requests (get_plugin_nested_info net plugin key)
       {| url := "/api/plugin/nested/info";
          params := [("plugin", VStr plugin); ("key", VStr key)] |}) ∧
  (∀ ioc_name,
     always_requests (get_ioc_records net ioc_name)
       {| url := "/api/ioc/pvs";
          params := [("ioc", VStr ioc_name); ("pv", VStr "*")] |}) ∧
  (∀ filename,
     always_requests (get_file_info net filename)
       {| url := "/api/file/info"; params := [("file", VStr filename)] |}) ∧
  always_requests (update_duplicates net)
    {| url := "/api/pv/duplicates"; params := [("pattern", VStr "*")] |} ∧
  always_requests (get_pv_relations net)
    {| url := "/api/pv/relations";
       params := [("pv", VStr "*"); ("glob", VBool true); ("full", VBool false)] |}.
Proof.
  unfold update_gateway_info, update_plugin_info, get_plugin_nested_keys,
    get_plugin_nested_info, get_ioc_records, get_file_info, update_duplicates,
    get_pv_relations.
  repeat apply conj; intros; intros w; unfold new_events; run_cases;
    rewrite <- ?app_assoc; simpl; by rewrite drop_app_length.
Qed.

Lemma ioc_info_tracker_pair l s :
  ioc_info (mutate end_query (mutate (set_ioc_info l) (mutate start_query s))) = l.
Proof. destruct s. unfold mutate. simpl. repeat case_decide; reflexivity. Qed.

(** X19. [update_ioc_info] of [remote_store] asks the server only while
    the store has no IOC: a non-empty [ioc_info] is returned as it is,
    with no request and no commit. An answered request returns and stores
    the answer's matches; when they are not empty the next call returns
    them from the store, and when they are empty the next call asks
    again. *)
Theorem remote_ioc_listing (w : World) :
  (ioc_info (store w) ≠ [] →
   update_ioc_info net w = (Return (Some (ioc_info (store w))), w)) ∧
  (∀ r,
     ioc_info (store w) = [] →
     api_ioc_matches (net (trace w ++ [EvCommit start_query])) "*" = Some r →
     let first := update_ioc_info net w in
     first.1 = Return (Some (ioc_matches r)) ∧
     ioc_info (store first.2) = ioc_matches r ∧
     (ioc_matches r ≠ [] →
      update_ioc_info net first.2 = (Return (Some (ioc_matches r)), first.2)) ∧
     (ioc_matches r = [] →
      requests_of (new_events first.2 (update_ioc_info net first.2).2) =
      [{| url := "/api/ioc/matches"; params := [("pattern", VStr "*")] |}])).
Proof.
  assert (∀ w', ioc_info (store w') ≠ [] →
                update_ioc_info net w' = (Return (Some (ioc_info (store w'))), w'))
    as Hhit.
  { intros w' Hne. unfold update_ioc_info. unfold_monad. simpl.
    destruct (ioc_info (store w')); [done | reflexivity]. }
  assert (∀ w', ioc_info (store w') = [] →
                requests_of (new_events w' (update_ioc_info net w').2) =
                [{| url := "/api/ioc/matches"; params := [("pattern", VStr "*")] |}])
    as Hmiss.
  { intros w' He. unfold update_ioc_info, new_events. unfold_monad. simpl.
    rewrite He. simpl. destruct (api_ioc_matches _ _); simpl;
      rewrite <- ?app_assoc; simpl; by rewrite drop_app_length. }
  split; [apply Hhit |].
  intros r He Hr. cbv zeta.
  assert (update_ioc_info net w =
          (Return (Some (ioc_matches r)),
           {| store := mutate end_query (mutate (set_ioc_info (ioc_matches r))
                         (mutate start_query (store w)));
              trace := trace w ++
                [EvCommit start_query;
                 EvGet {| url := "/api/ioc/matches";
                          params := [("pattern", VStr "*")] |} true;
                 EvCommit (set_ioc_info (ioc_matches r)); EvCommit end_query] |}))
    as Hrun.
  { unfold update_ioc_info. unfold_monad. simpl. rewrite He. simpl.
    rewrite Hr. simpl. by rewrite <- !app_assoc. }
  rewrite Hrun. simpl fst. simpl snd.
  split; [reflexivity |]. split; [apply ioc_info_tracker_pair |]. split.
  - intros Hne. rewrite Hhit; simpl; rewrite ioc_info_tracker_pair; done.
  - intros Hempty. apply Hmiss. simpl. by rewrite ioc_info_tracker_pair.
Qed.

Lemma record_info_mutate m s :
  (∀ rec i, m ≠ add_record_info rec i) →
  record_info (mutate m s) = record_info s.
Proof.
  intros Hm. destruct s, m as [| | ? ? [] | | | | | | | | | | |];
    try (by destruct (Hm _ _ eq_refl));
    unfold mutate; simpl; repeat case_decide; reflexivity.
Qed.

(** X20. [remote_store] never fills [record_info]: its only action that
    commits [add_record_info], [get_record_info], raises a
    [ReferenceError] before it does anything, and no other action of the
    store touches the table. *)
Theorem remote_store_never_fills_record_info :
  (∀ w, get_record_info net w = (Throw ReferenceError, w)) ∧
  keeps_record_info (update_ioc_info net) ∧
  keeps_record_info (update_gateway_info net) ∧
  (∀ plugin, keeps_record_info (update_plugin_info net plugin)) ∧
  (∀ plugin, keeps_record_info (get_plugin_nested_keys net plugin)) ∧
  (∀ plugin key, keeps_record_info (get_plugin_nested_info net plugin key)) ∧
  keeps_record_info (get_record_info net) ∧
  (∀ ioc_name, keeps_record_info (get_ioc_records net ioc_name)) ∧
  (∀ filename, keeps_record_info (get_file_info net filename)) ∧
  keeps_record_info (update_duplicates net) ∧
  keeps_record_info (get_pv_relations net) ∧
  (∀ pattern max_pvs regex,
     keeps_record_info (find_record_matches net pattern max_pvs regex)).
Proof.
  unfold update_ioc_info, update_gateway_info, update_plugin_info,
    get_plugin_nested_keys, get_plugin_nested_info, get_ioc_records,
    get_file_info, update_duplicates, get_pv_relations, find_record_matches.
  repeat apply conj; try reflexivity; intros; intros w; run_cases;
    rewrite ?record_info_mutate by discriminate; reflexivity.
Qed.
End answered.


Lemma remote_ioc_listing_witness :
  (remote_store.update_ioc_info (demo.online demo.two_iocs) initial_world).1 =
  Return (Some [VObj [("name", VStr "A")]; VObj [("name", VStr "B")]]).
Proof.
  destruct (remote_ioc_listing (demo.online demo.two_iocs) initial_world)
    as [_ H].
  by destruct (H {| ioc_matches := md <$> obj_values demo.two_iocs |}
                 eq_refl eq_refl) as [Hfirst _].
Defined.

(** ** The nested plugin table *)





(** ** One memo per search mode *)

Section search_modes.
Context (net : list Event → Server).
Context (wcmatch : string → string → bool).
Context (RegExp : string → option (string → bool)).

Lemma pv_cache_other_mode regex pattern l s :
  pv_cache (negb regex) (mutate (add_record_search_results pattern l regex) s)
  = pv_cache (negb regex) s.
Proof. by destruct s, regex. Qed.

Lemma pv_cache_start regex s :
  pv_cache regex (mutate start_query s) = pv_cache regex s.
Proof. by destruct s, regex. Qed.

(** X22. Glob searches and regex searches keep separate memos in both
    stores: a search in one mode, whatever its outcome, leaves the memo of
    the other mode as it was, so a pattern searched as a glob is searched
    afresh when it comes as a regular expression; and within its own
    mode a search changes the memo at its own pattern only. *)
Theorem search_modes_keep_separate_memos
    (pattern : option string) (max_pvs : Value) (regex : bool) (w : World) :
  let remote := remote_store.find_record_matches net pattern max_pvs regex w in
  let local :=
    cached_local_store.find_record_matches net wcmatch RegExp pattern max_pvs
      regex w in
  pv_cache (negb regex) (store remote.2) = pv_cache (negb regex) (store w) ∧
  pv_cache (negb regex) (store local.2) = pv_cache (negb regex) (store w) ∧
  (∀ other,
     Some other ≠ pattern →
     pv_cache regex (store remote.2) !! other = pv_cache regex (store w) !! other ∧
     pv_cache regex (store local.2) !! other = pv_cache regex (store w) !! other).
Proof.
  cbv zeta.
  assert (∀ b w' c w1,
            load net w' = (Return c, w1) →
            pv_cache b (store w1) = pv_cache b (store w')) as Hload.
  { intros b w' c w1 Hl.
    destruct (load_tables net w' c w1 Hl) as (_ & _ & _ & _ & Hglob & Hregex).
    by destruct b. }
  destruct pattern as [pattern |]; [| by repeat split].
  destruct (pv_cache regex (store w) !! pattern) as [l0 |] eqn:Hm.
  - rewrite (remote_find_hit net pattern max_pvs regex w l0 Hm),
      (find_record_matches_hit net wcmatch RegExp pattern max_pvs regex w l0 Hm).
    by repeat split.
  - destruct (load_spec net w) as (c & w1 & evs & Hl & _ & _).
    rewrite (remote_find_miss net pattern max_pvs regex w Hm),
      (find_record_matches_miss net wcmatch RegExp pattern max_pvs regex w c w1
         Hm Hl).
    repeat apply conj.
    + destruct (api_pv_matches _ _ _ _); simpl;
        by rewrite pv_cache_end, ?pv_cache_other_mode, pv_cache_start.
    + destruct (cached_local_store.compile_matcher _ _ _ _);
        [destruct (iocs c) |]; simpl; unfold mutate_all; simpl;
        rewrite ?pv_cache_end, ?pv_cache_other_mode; exact (Hload _ w c w1 Hl).
    + intros other Hother.
      assert (∀ l s,
                pv_cache regex (mutate (add_record_search_results pattern l regex) s)
                  !! other = pv_cache regex s !! other) as Hadd.
      { intros l s. destruct s, regex; simpl; apply lookup_insert_ne; congruence. }
      split.
      * destruct (api_pv_matches _ _ _ _); simpl;
          by rewrite pv_cache_end, ?Hadd, pv_cache_start.
      * destruct (cached_local_store.compile_matcher _ _ _ _);
          [destruct (iocs c) |]; simpl; unfold mutate_all; simpl;
          rewrite ?pv_cache_end, ?Hadd; by rewrite (Hload regex w c w1 Hl).
Qed.
End search_modes.

Lemma search_modes_keep_separate_memos_witness :
  pv_cache false
    (store (cached_local_store.find_record_matches demo.offline demo.wcmatch
              demo.RegExp (Some "pv1") VNull true (demo.loaded demo.two_iocs)).2)
    !! "pv1" = None.
Proof.
  destruct (search_modes_keep_separate_memos demo.offline demo.wcmatch demo.RegExp
              (Some "pv1") VNull true (demo.loaded demo.two_iocs))
    as (_ & H & _).
  simpl negb in H. by rewrite H.
Defined.

(** ** What the snapshot store still asks the server *)

Section shared_actions.
Context (net : list Event → Server).

(** X23. The snapshot store is not offline for everything: its gateway,
    plugin and relation actions are those of [remote_store], request for
    request and commit for commit, and like them they send their request
    on every call, snapshot loaded or not. *)
Theorem snapshot_store_still_requests :
  (cached_local_store.update_gateway_info net = remote_store.update_gateway_info net ∧
   cached_local_store.update_plugin_info net = remote_store.update_plugin_info net ∧
   cached_local_store.get_plugin_nested_keys net =
     remote_store.get_plugin_nested_keys net ∧
   cached_local_store.get_plugin_nested_info net =
     remote_store.get_plugin_nested_info net ∧
   cached_local_store.get_pv_relations net = remote_store.get_pv_relations net) ∧
  always_requests (cached_local_store.update_gateway_info net)
    {| url := "/api/gateway/info"; params := [] |} ∧
  (∀ plugin,
     always_requests (cached_local_store.update_plugin_info net plugin)
       {| url := "/api/plugin/info"; params := [("plugin", VStr plugin)] |}) ∧
  (∀ plugin,
     always_requests (cached_local_store.get_plugin_nested_keys net plugin)
       {| url := "/api/plugin/nested/keys"; params := [("plugin", VStr plugin)] |}) ∧
  (∀ plugin key,
     always_requests (cached_local_store.get_plugin_nested_info net plugin key)
       {| url := "/api/plugin/nested/info";
          params := [("plugin", VStr plugin); ("key", VStr key)] |}) ∧
  always_requests (cached_local_store.get_pv_relations net)
    {| url := "/api/pv/relations";
       params := [("pv", VStr "*"); ("glob", VBool true); ("full", VBool false)] |}.
Proof.
  split; [by repeat split |].
  unfold cached_local_store.update_gateway_info,
    cached_local_store.update_plugin_info,
    cached_local_store.get_plugin_nested_keys,
    cached_local_store.get_plugin_nested_info,
    cached_local_store.get_pv_relations.
  repeat apply conj; intros; intros w; unfold new_events; run_cases;
    rewrite <- ?app_assoc; simpl; by rewrite drop_app_length.
Qed.
End shared_actions.

(** ** What the searches file and when they ask again *)

Section filed_searches.
Context (net : list Event → Server).
Context (wcmatch : string → string → bool).
Context (RegExp : string → option (string → bool)).



(** X26. A snapshot that could not be fetched is not remembered: the
    loader returns an empty object, leaves [state.cache] unset, and the
    next load sends the request again; when that one is answered, the
    snapshot is stored after all. *)
Theorem failed_load_is_retried (w : World) :
  cache (store w) = None →
  cache_json_gz (net (trace w ++ [EvCommit start_query])) = None →
  let first := cached_local_store.load_cached_whatrecord_data net w in
  let second := cached_local_store.load_cached_whatrecord_data net first.2 in
  first.1 = Return empty_object ∧
  cache (store first.2) = None ∧
  requests_of (new_events first.2 second.2) =
    [{| url := "/cache.json.gz"; params := [] |}] ∧
  (∀ c, cache_json_gz (net (trace first.2 ++ [EvCommit start_query])) = Some c →
        second.1 = Return c ∧ cache (store second.2) = Some c).
Proof.
  intros Hnone Hfetch. cbv zeta.
  assert (cached_local_store.load_cached_whatrecord_data net w =
          (Return empty_object,
           {| store := mutate end_query (mutate start_query (store w));
              trace := trace w ++
                [EvCommit start_query;
                 EvGet {| url := "/cache.json.gz"; params := [] |} false;
                 EvCommit end_query] |})) as Hrun.
  { unfold cached_local_store.load_cached_whatrecord_data. unfold_monad. simpl.
    rewrite Hnone. simpl. rewrite Hfetch. simpl. by rewrite <- !app_assoc. }
  rewrite Hrun. simpl fst. simpl snd.
  assert (cache (mutate end_query (mutate start_query (store w))) = None) as Hc.
  { rewrite !cache_mutate by exact I. exact Hnone. }
  split; [reflexivity |]. split; [exact Hc |].
  set (w2 := {| store := mutate end_query (mutate start_query (store w));
                trace := _ |}).
  assert (cache (store w2) = None) as Hc2 by exact Hc.
  clearbody w2. clear Hrun Hfetch Hnone Hc.
  unfold cached_local_store.load_cached_whatrecord_data.
  unfold_monad. simpl. rewrite Hc2. simpl. split.
  - unfold new_events.
    destruct (cache_json_gz _); simpl; rewrite <- !app_assoc; simpl;
      by rewrite drop_app_length.
  - intros c' Hc'. rewrite Hc'. simpl. split; [reflexivity |].
    rewrite cache_mutate by exact I.
    by destruct (mutate start_query (store w2)).
Qed.
End filed_searches.



Lemma failed_load_is_retried_witness :
  (cached_local_store.load_cached_whatrecord_data demo.offline initial_world).1 =
  Return empty_object.
Proof.
  by destruct (failed_load_is_retried demo.offline initial_world eq_refl eq_refl)
    as (H & _).
Defined.
